(** * A hierarchical token bucket: shallow embedding of [src/index.ts]

    The class [HierarchicalTokenBucket] is embedded over an explicit object
    store.  A bucket is an object with identity: several children may hold the
    same [parent] reference and every [take] on a child mutates that shared
    parent, so buckets live in a heap and are named by their address.

    Numbers.  JavaScript numbers are IEEE-754 doubles.  The class is embedded
    twice.  The first embedding takes numbers to be exact rationals ([Q]):
    it carries the general theorems, which are order facts ([<=], [min],
    [max]), single evaluations of a source expression, and whole-number
    arithmetic below [2^53], where the doubles agree with the rationals.
    Since [Q] carries several representations of one number, numeric
    results are compared with [==] ([Qeq]).  [Date.now()] yields an integral
    number of milliseconds and is modelled by [Z].  The second embedding,
    module [Double], is on binary64 floats, with rounding and [NaN]; the
    code is evaluated there on the inputs at which the two differ.

    Time.  [Date.now()] reads the field [clock] of the world.  The clock is
    moved by the environment between two calls ([advanceTimersByTime],
    [setSystemTime], as with the fake timers of the test-suite); it may be set
    to any value, also backwards, as a wall clock may be.  One clock value
    serves all the readings of one method call.

    [withTokenBucket] awaits a timer between [take] and the callback.  What
    happens while it is suspended is the environment's, so its [sleep] is an
    argument of the embedding. *)

From Stdlib Require Import ZArith QArith Qminmax Qround Lqa Lia String.
From Stdlib Require Import Floats.PrimFloat.
From stdpp Require Import base decidable option list.

Local Open Scope Z_scope.

(** ** JavaScript values and operators *)

(** [!x] for [x : number | undefined]: [undefined] and [0] are falsy. *)
Definition js_not (x : option Z) : bool :=
  match x with
  | None => true
  | Some 0 => true
  | Some _ => false
  end.

(** [x || 0] for [x : number | undefined]. *)
Definition js_or_0 (x : option Q) : Q :=
  match x with
  | None => 0%Q
  | Some q => if Qeq_bool q 0 then 0%Q else q
  end.

(** [x >= y] and [x > y] on numbers. *)
Definition js_ge (x y : Q) : bool := Qle_bool y x.
Definition js_gt (x y : Q) : bool := negb (Qle_bool x y).

Definition Math_min (x y : Q) : Q := Qmin x y.
Definition Math_max (x y z : Q) : Q := Qmax (Qmax x y) z.

(** ** The object store *)

Abbreviation ref := nat.

Record HierarchicalTokenBucketOptions := {
  maximumCapacity : Q;
  refillRate : Q;
  parent : option ref
}.

Record HierarchicalTokenBucket := {
  options : HierarchicalTokenBucketOptions;
  lastTimestamp : Z;
  capacity : Q;
  firstTimestamp : option Z;
  count : Z
}.

Record World := {
  heap : list HierarchicalTokenBucket;
  clock : Z
}.

Definition set_lastTimestamp (v : Z) (b : HierarchicalTokenBucket) :=
  {| options := options b; lastTimestamp := v; capacity := capacity b;
     firstTimestamp := firstTimestamp b; count := count b |}.

Definition set_capacity (v : Q) (b : HierarchicalTokenBucket) :=
  {| options := options b; lastTimestamp := lastTimestamp b; capacity := v;
     firstTimestamp := firstTimestamp b; count := count b |}.

Definition set_firstTimestamp (v : option Z) (b : HierarchicalTokenBucket) :=
  {| options := options b; lastTimestamp := lastTimestamp b;
     capacity := capacity b; firstTimestamp := v; count := count b |}.

Definition set_count (v : Z) (b : HierarchicalTokenBucket) :=
  {| options := options b; lastTimestamp := lastTimestamp b;
     capacity := capacity b; firstTimestamp := firstTimestamp b; count := v |}.

(** ** Computations: state, exceptions, and going wrong

    [Throw] is a JavaScript exception.  [Stuck] marks what no JavaScript run
    does: a dangling reference, or a parent chain longer than the heap. *)

Inductive exn := Error (message : string).

Inductive Res (A : Type) :=
| Val (a : A) (w : World)
| Throw (e : exn)
| Stuck.
Arguments Val {A} a w.
Arguments Throw {A} e.
Arguments Stuck {A}.

Definition M (A : Type) := World -> Res A.

Definition ret {A} (a : A) : M A := fun w => Val a w.

Definition bind {A B} (m : M A) (k : A -> M B) : M B :=
  fun w =>
    match m w with
    | Val a w' => k a w'
    | Throw e => Throw e
    | Stuck => Stuck
    end.

Declare Scope js_scope.
Delimit Scope js_scope with js.
Notation "'let!' x ':=' m 'in' k" := (bind m (fun x => k))
  (at level 10, x name, m at level 100, k at level 200) : js_scope.
Notation "'do!' m 'in' k" := (bind m (fun _ => k))
  (at level 10, m at level 100, k at level 200) : js_scope.
Local Open Scope js_scope.

Definition throw {A} (e : exn) : M A := fun _ => Throw e.

Definition Date_now : M Z := fun w => Val (clock w) w.

Definition read (this : ref) : M HierarchicalTokenBucket :=
  fun w =>
    match heap w !! this with
    | Some b => Val b w
    | None => Stuck
    end.

Definition modify (this : ref)
    (f : HierarchicalTokenBucket -> HierarchicalTokenBucket) : M unit :=
  fun w =>
    match heap w !! this with
    | Some b => Val tt {| heap := <[this := f b]> (heap w); clock := clock w |}
    | None => Stuck
    end.

Definition alloc (b : HierarchicalTokenBucket) : M ref :=
  fun w => Val (length (heap w)) {| heap := heap w ++ [b]; clock := clock w |}.

(** The environment: the clock is set, or moved by [ms] milliseconds. *)
Definition setSystemTime (t : Z) (w : World) : World :=
  {| heap := heap w; clock := t |}.

Definition advanceTimersByTime (ms : Z) (w : World) : World :=
  {| heap := heap w; clock := clock w + ms |}.

(** ** The class *)

Definition constructor (opts : HierarchicalTokenBucketOptions) : M ref :=
  if negb (js_ge (maximumCapacity opts) 1) then
    throw (Error "HierarchicalTokenBucket.maximumCapacity must be >= 1")
  else if negb (js_gt (refillRate opts) 0) then
    throw (Error "HierarchicalTokenBucket.refillRate must be > 0")
  else
    let! t := Date_now in
    alloc {| options := opts; lastTimestamp := t;
             capacity := maximumCapacity opts;
             firstTimestamp := None; count := 0 |}.

(** [Omit<HierarchicalTokenBucketOptions, 'parent'>] *)
Record ChildOptions := {
  child_maximumCapacity : Q;
  child_refillRate : Q
}.

Definition child (this : ref) (opts : option ChildOptions) : M ref :=
  let! b := read this in
  constructor
    {| maximumCapacity :=
         match opts with
         | Some o => child_maximumCapacity o
         | None => maximumCapacity (options b)
         end;
       refillRate :=
         match opts with
         | Some o => child_refillRate o
         | None => refillRate (options b)
         end;
       parent := Some this |}.

Record HierarchicalTokenBucketMetrics := {
  m_firstTimestamp : option Z;
  m_lastTimestamp : Z;
  m_count : Z;
  m_capacity : Q
}.

#[local] Unset Elimination Schemes.
Inductive HierarchicalTokenBucketMetadata :=
| Metadata (md_maximumCapacity md_refillRate : Q)
           (md_metrics : HierarchicalTokenBucketMetrics)
           (md_parent : option HierarchicalTokenBucketMetadata).
#[local] Set Elimination Schemes.

Fixpoint metadata_fuel (fuel : nat) (this : ref)
    : M HierarchicalTokenBucketMetadata :=
  match fuel with
  | O => fun _ => Stuck
  | S fuel' =>
      let! b := read this in
      let! p := match parent (options b) with
                | Some p => let! m := metadata_fuel fuel' p in ret (Some m)
                | None => ret None
                end in
      ret (Metadata (maximumCapacity (options b)) (refillRate (options b))
             {| m_firstTimestamp := firstTimestamp b;
                m_lastTimestamp := lastTimestamp b;
                m_count := count b;
                m_capacity := capacity b |}
             p)
  end.

Definition metadata (this : ref) : M HierarchicalTokenBucketMetadata :=
  fun w => metadata_fuel (length (heap w)) this w.

Definition addOneToMetrics (this : ref) : M unit :=
  let! b := read this in
  do! (if js_not (firstTimestamp b) then
         let! t := Date_now in modify this (set_firstTimestamp (Some t))
       else ret tt) in
  modify this (fun b => set_count (count b + 1) b).

Definition refreshCapacity (this : ref) : M unit :=
  let! currentTimestamp := Date_now in
  let! b := read this in
  let elapsedTimeInSeconds :=
    (inject_Z (currentTimestamp - lastTimestamp b) / 1000)%Q in
  do! modify this (set_lastTimestamp currentTimestamp) in
  modify this (fun b =>
    set_capacity
      (Math_min (capacity b + refillRate (options b) * elapsedTimeInSeconds)
                (maximumCapacity (options b)))%Q b).

(** [this.capacity -= 1] *)
Definition minus_one (b : HierarchicalTokenBucket) : HierarchicalTokenBucket :=
  set_capacity (capacity b - 1)%Q b.

Definition timeToWait (b : HierarchicalTokenBucket) : Q :=
  ((1 - capacity b) / refillRate (options b))%Q.

(** The body of [take], with the method that [this.options.parent?.take()]
    dispatches to as the argument [parent_take]. *)
Definition take_body (parent_take : ref -> M Q) (this : ref) : M Q :=
  do! addOneToMetrics this in
  do! refreshCapacity this in
  let minTimeToWait := 0%Q in
  let! b := read this in
  let timeForThisToWait := timeToWait b in
  let! timeForParentToWait :=
    match parent (options b) with
    | Some p => let! t := parent_take p in ret (js_or_0 (Some t))
    | None => ret (js_or_0 None)
    end in
  do! modify this minus_one in
  ret (Math_max minTimeToWait timeForThisToWait timeForParentToWait).

(** [take] follows the parent reference; the recursion is bounded by [fuel],
    and [take] supplies the size of the heap, which no parent chain of a
    heap built by [constructor] and [child] exceeds. *)
Fixpoint take_fuel (fuel : nat) (this : ref) : M Q :=
  match fuel with
  | O => fun _ => Stuck
  | S fuel' => take_body (take_fuel fuel') this
  end.

Definition take (this : ref) : M Q :=
  fun w => take_fuel (length (heap w)) this w.

(** [depleteBucketByCapacity] of the test-suite, with the waits kept. *)
Fixpoint takes (n : nat) (this : ref) : M (list Q) :=
  match n with
  | O => ret []
  | S n' => let! t := take this in let! ts := takes n' this in ret (t :: ts)
  end.

Definition depleteBucketByCapacity (bucket : ref) (n : nat) : M unit :=
  do! takes n bucket in ret tt.

Definition empty_world (t : Z) : World := {| heap := []; clock := t |}.

(** ** Scenario of the test "should take one token from every parent" *)

Definition three_levels : M Q :=
  let! grandParentBucket :=
    constructor {| maximumCapacity := 10; refillRate := 1; parent := None |} in
  let! parentBucket :=
    child grandParentBucket
      (Some {| child_maximumCapacity := 100; child_refillRate := 10 |}) in
  let! bucket :=
    child parentBucket
      (Some {| child_maximumCapacity := 1000; child_refillRate := 100 |}) in
  do! depleteBucketByCapacity bucket 10 in
  take bucket.


(** ** The helper [withTokenBucket]

    [await sleep(timeToWaitInMs)] hands control to the event loop until the
    timer fires.  [sleep] stands for that stretch: a computation given the
    requested delay, which moves the clock and may run other callers.  The
    callback [cb] is a computation; a rejected promise is a [Throw]. *)
Definition withTokenBucket {T} (sleep : Q -> M unit) (tokenBucket : ref)
    (cb : M T) : M T :=
  let! timeToWaitInMs := take tokenBucket in
  do! sleep timeToWaitInMs in
  cb.

(** * Specification vocabulary *)

Definition store (w : World) (i : ref) (b : HierarchicalTokenBucket) : World :=
  {| heap := <[i := b]> (heap w); clock := clock w |}.

(** [addOneToMetrics] at time [t]. *)
Definition counted (t : Z) (b : HierarchicalTokenBucket) :=
  let b' := if js_not (firstTimestamp b)
            then set_firstTimestamp (Some t) b else b in
  set_count (count b' + 1) b'.

(** The time [refreshCapacity] refills for, at time [t]. *)
Definition elapsed (t : Z) (b : HierarchicalTokenBucket) : Q :=
  (inject_Z (t - lastTimestamp b) / 1000)%Q.

(** [refreshCapacity] at time [t]. *)
Definition refreshed (t : Z) (b : HierarchicalTokenBucket) :=
  set_capacity
    (Math_min (capacity b + refillRate (options b) * elapsed t b)
              (maximumCapacity (options b)))%Q
    (set_lastTimestamp t b).

(** A whole [take] at time [t], seen from one bucket of the chain. *)
Definition taken (t : Z) (b : HierarchicalTokenBucket) :=
  minus_one (refreshed t (counted t b)).

(** The largest of [0] and the members of a list. *)
Definition max_list (l : list Q) : Q := fold_right Qmax 0%Q l.

(** What [constructor] establishes for the bucket at address [i], and every
    method keeps: the parent was allocated before, the options passed the
    checks, and the capacity is at most [maximumCapacity]. *)
Record wf_bucket (i : ref) (b : HierarchicalTokenBucket) : Prop := {
  wf_parent : forall p, parent (options b) = Some p -> (p < i)%nat;
  wf_maximumCapacity : (1 <= maximumCapacity (options b))%Q;
  wf_refillRate : (0 < refillRate (options b))%Q;
  wf_capacity : (capacity b <= maximumCapacity (options b))%Q
}.

Definition wf (w : World) : Prop :=
  forall i b, heap w !! i = Some b -> wf_bucket i b.

Definition wf_bucketb (i : ref) (b : HierarchicalTokenBucket) : bool :=
  match parent (options b) with Some p => (p <? i)%nat | None => true end
  && Qle_bool 1 (maximumCapacity (options b))
  && negb (Qle_bool (refillRate (options b)) 0)
  && Qle_bool (capacity b) (maximumCapacity (options b)).

Fixpoint wf_from (i : ref) (h : list HierarchicalTokenBucket) : bool :=
  match h with
  | [] => true
  | b :: h' => wf_bucketb i b && wf_from (S i) h'
  end.

Definition wfb (w : World) : bool := wf_from 0%nat (heap w).

(** Parent references point to older buckets. *)
Definition parents_below (h : list HierarchicalTokenBucket) : Prop :=
  forall i b p, h !! i = Some b -> parent (options b) = Some p -> (p < i)%nat.

(** [this], its parent, its grandparent and so on, up to the root. *)
Fixpoint chain_fuel (fuel : nat) (h : list HierarchicalTokenBucket)
    (this : ref) : list ref :=
  match fuel with
  | O => []
  | S fuel' =>
      match h !! this with
      | None => []
      | Some b =>
          this :: match parent (options b) with
                  | Some p => chain_fuel fuel' h p
                  | None => []
                  end
      end
  end.

Definition chain (w : World) (this : ref) : list ref :=
  chain_fuel (length (heap w)) (heap w) this.

Definition parent_at (h : list HierarchicalTokenBucket) (i : ref) :=
  (fun b => parent (options b)) <$> h !! i.

(** The heap after a [take] at time [t] that went through the chain [c],
    and the deficit-closing time of the bucket at [i] once refilled. *)
Definition take_chain (t : Z) (c : list ref)
    (h : list HierarchicalTokenBucket) : list HierarchicalTokenBucket :=
  imap (fun i b => if bool_decide (i ∈ c) then taken t b else b) h.

Definition wait_at (t : Z) (h : list HierarchicalTokenBucket) (i : ref) : Q :=
  match h !! i with
  | Some b => timeToWait (refreshed t b)
  | None => 0%Q
  end.

(** The bucket that [constructor] allocates at time [t]. *)
Definition fresh (opts : HierarchicalTokenBucketOptions) (t : Z) :=
  {| options := opts; lastTimestamp := t;
     capacity := maximumCapacity opts;
     firstTimestamp := None; count := 0 |}.

(** The two errors of [constructor]. *)
Definition InvalidConfiguration {A} (r : Res A) : Prop :=
  r = Throw (Error "HierarchicalTokenBucket.maximumCapacity must be >= 1") \/
  r = Throw (Error "HierarchicalTokenBucket.refillRate must be > 0").

(** Worlds that a program reaches through the public interface, with the
    environment moving the clock in between. *)
Inductive reachable : World -> Prop :=
| reach_empty t : reachable (empty_world t)
| reach_setSystemTime t w :
    reachable w -> reachable (setSystemTime t w)
| reach_advanceTimersByTime ms w :
    reachable w -> reachable (advanceTimersByTime ms w)
| reach_constructor opts w this w' :
    reachable w ->
    (forall p, parent opts = Some p -> (p < length (heap w))%nat) ->
    constructor opts w = Val this w' ->
    reachable w'
| reach_child this opts w c w' :
    reachable w -> child this opts w = Val c w' -> reachable w'
| reach_take this w t w' :
    reachable w -> take this w = Val t w' -> reachable w'
| reach_metadata this w m w' :
    reachable w -> metadata this w = Val m w' -> reachable w'.

(** The bucket at [this] was refilled at the present time, has the options
    [opts] and holds [c] tokens. *)
Definition steady (opts : HierarchicalTokenBucketOptions) (c : Q)
    (this : ref) (w : World) : Prop :=
  exists b, heap w !! this = Some b /\ options b = opts /\
            lastTimestamp b = clock w /\ (capacity b == c)%Q.

(** The body of [take] with the statements in the order of the sentence
    "the bucket always debits itself before recursing to the parent". *)
Definition take_body_debit_first (parent_take : ref -> M Q) (this : ref)
    : M Q :=
  do! addOneToMetrics this in
  do! refreshCapacity this in
  let minTimeToWait := 0%Q in
  let! b := read this in
  let timeForThisToWait := timeToWait b in
  do! modify this minus_one in
  let! timeForParentToWait :=
    match parent (options b) with
    | Some p => let! t := parent_take p in ret (js_or_0 (Some t))
    | None => ret (js_or_0 None)
    end in
  ret (Math_max minTimeToWait timeForThisToWait timeForParentToWait).

Fixpoint take_debit_first_fuel (fuel : nat) (this : ref) : M Q :=
  match fuel with
  | O => fun _ => Stuck
  | S fuel' => take_body_debit_first (take_debit_first_fuel fuel') this
  end.

Definition take_debit_first (this : ref) : M Q :=
  fun w => take_debit_first_fuel (length (heap w)) this w.

(** A callee that stands for the parent's [take] and reports the capacity it
    finds in the bucket at [i]. *)
Definition observe (i : ref) : ref -> M Q :=
  fun _ => let! b := read i in ret (capacity b).

(** ** Worlds of the examples *)

(** A parent (100 tokens, 10 per second) and its child (10 tokens, 1 per
    second), both full and refilled at time [t]. *)
Definition two_levels (t : Z) : World :=
  {| heap :=
       [ fresh {| maximumCapacity := 100; refillRate := 10;
                  parent := None |} t;
         fresh {| maximumCapacity := 10; refillRate := 1;
                  parent := Some 0%nat |} t ];
     clock := t |}.

(** A root bucket (10 tokens, 1 per second) constructed at [t0], in a world
    whose clock now reads [t]. *)
Definition one_bucket (t0 t : Z) : World :=
  {| heap := [ fresh {| maximumCapacity := 10; refillRate := 1;
                        parent := None |} t0 ];
     clock := t |}.

(** The bucket of the test "should return refillRate * elapsedTime if
    capacity was previously zero", emptied at [t], one second later. *)
Definition emptied_bucket (t : Z) : World :=
  {| heap :=
       [ {| options := {| maximumCapacity := 100; refillRate := 10;
                          parent := None |};
            lastTimestamp := t; capacity := 0;
            firstTimestamp := Some t; count := 100 |} ];
     clock := t + 1000 |}.

(** That test, run from the constructor. *)
Definition refill_scenario : M (list Q) :=
  let! bucket :=
    constructor {| maximumCapacity := 100; refillRate := 10;
                   parent := None |} in
  do! depleteBucketByCapacity bucket 100 in
  fun w => takes 11 bucket (advanceTimersByTime 1000 w).

(** [in_parent_chain h this i]: the bucket at [i] is the bucket at [this],
    or its parent, or the parent of that one, and so on. *)
Inductive in_parent_chain (h : list HierarchicalTokenBucket)
    : ref -> ref -> Prop :=
| chain_here this : in_parent_chain h this this
| chain_up this b p i :
    h !! this = Some b -> parent (options b) = Some p ->
    in_parent_chain h p i -> in_parent_chain h this i.

(** Each element is at most the next one. *)
Definition nondecreasing (l : list Q) : Prop :=
  forall k a a', l !! k = Some a -> l !! S k = Some a' -> (a <= a')%Q.

(** The test "should return maxCapacity if refilled beyond maxCapacity":
    the capacity is set to 99, one token is taken, a second passes. *)
Definition clamp_scenario : M (list Q) :=
  let! bucket :=
    constructor {| maximumCapacity := 100; refillRate := 10;
                   parent := None |} in
  do! modify bucket (set_capacity 99) in
  do! depleteBucketByCapacity bucket 1 in
  fun w => takes 101 bucket (advanceTimersByTime 1000 w).

(** ** Vocabulary for the further properties *)

Definition md_maximumCapacity (m : HierarchicalTokenBucketMetadata) : Q :=
  match m with Metadata x _ _ _ => x end.

Definition md_refillRate (m : HierarchicalTokenBucketMetadata) : Q :=
  match m with Metadata _ x _ _ => x end.

Definition md_metrics (m : HierarchicalTokenBucketMetadata) :=
  match m with Metadata _ _ x _ => x end.

Definition md_parent (m : HierarchicalTokenBucketMetadata) :=
  match m with Metadata _ _ _ x => x end.

(** The number of snapshots in a metadata value: its own and the nested
    ones. *)
Fixpoint md_depth (m : HierarchicalTokenBucketMetadata) : nat :=
  match m with
  | Metadata _ _ _ p =>
      S (match p with Some m' => md_depth m' | None => 0%nat end)
  end.

(** The metrics that [metadata] reports for a bucket. *)
Definition metrics_of (b : HierarchicalTokenBucket) :=
  {| m_firstTimestamp := firstTimestamp b;
     m_lastTimestamp := lastTimestamp b;
     m_count := count b;
     m_capacity := capacity b |}.

(** A timer that fires exactly when due, with nothing else running. *)
Definition sleep_timer (ms : Q) : M unit :=
  fun w => Val tt (advanceTimersByTime (Qceiling ms) w).

(** A parent (100 tokens, 10 per second) with two children (10 tokens, 1 per
    second each), all full and refilled at time [t]. *)
Definition two_leaves (t : Z) : World :=
  {| heap :=
       [ fresh {| maximumCapacity := 100; refillRate := 10;
                  parent := None |} t;
         fresh {| maximumCapacity := 10; refillRate := 1;
                  parent := Some 0%nat |} t;
         fresh {| maximumCapacity := 10; refillRate := 1;
                  parent := Some 0%nat |} t ];
     clock := t |}.

(** The deficit-closing time of the bucket at [i] for the take that follows
    [k] earlier takes at the same time [t]. *)
Definition wait_after (t : Z) (h : list HierarchicalTokenBucket) (k : nat)
    (i : ref) : Q :=
  match h !! i with
  | Some b =>
      ((1 - (capacity (refreshed t b) - inject_Z (Z.of_nat k)))
       / refillRate (options b))%Q
  | None => 0%Q
  end.

(** What the counters of the bucket at [i] keep: [count] is not negative,
    [firstTimestamp] is absent exactly while [count] is [0], and [count]
    does not exceed the parent's. *)
Definition counters_ok (w : World) : Prop :=
  forall i b, heap w !! i = Some b ->
    (0 <= count b)%Z /\
    (firstTimestamp b = None <-> count b = 0%Z) /\
    forall p bp, parent (options b) = Some p -> heap w !! p = Some bp ->
      (count b <= count bp)%Z.

(** The capacity after a refill at time [t], written out:
    [min (capacity + refillRate * elapsed, maximumCapacity)] with the
    elapsed milliseconds divided by [1000]. *)
Definition refilled (t : Z) (b : HierarchicalTokenBucket) : Q :=
  Qmin (capacity b
        + refillRate (options b) * (inject_Z (t - lastTimestamp b) / 1000))
       (maximumCapacity (options b)).

(** * The class on IEEE-754 doubles

    The embedding above takes numbers to be rationals.  JavaScript numbers
    are binary64 floats, with rounding, [NaN], signed zeros and infinities.
    This module embeds the class once more, statement by statement, on
    Rocq's primitive [float], which is binary64: it is where the code is
    evaluated on inputs at which the two differ.  [Date.now()] is a number
    as well, so the clock is a [float] here. *)
Module Double.

Local Open Scope float_scope.

(** [!x] and [x || 0]: [0], [-0] and [NaN] are falsy. *)
Definition falsy (x : float) : bool := (x =? 0) || is_nan x.

Definition js_not (x : option float) : bool :=
  match x with
  | None => true
  | Some f => falsy f
  end.

Definition js_or_0 (x : option float) : float :=
  match x with
  | None => 0
  | Some f => if falsy f then 0 else f
  end.

(** [x >= y] and [x > y]: false when either side is [NaN]. *)
Definition js_ge (x y : float) : bool := y <=? x.
Definition js_gt (x y : float) : bool := y <? x.

(** [Math.min] and [Math.max]: [NaN] if an argument is [NaN]; [-0] is below
    [+0]. *)
Definition is_neg_zero (x : float) : bool := (x =? 0) && (1 / x <? 0).

Definition min2 (x y : float) : float :=
  if is_nan x || is_nan y then nan
  else if y <? x then y
  else if x <? y then x
  else if is_neg_zero y then y else x.

Definition max2 (x y : float) : float :=
  if is_nan x || is_nan y then nan
  else if x <? y then y
  else if y <? x then x
  else if is_neg_zero x then y else x.

Definition Math_min (x y : float) : float := min2 x y.
Definition Math_max (x y z : float) : float := max2 (max2 x y) z.

Record HierarchicalTokenBucketOptions := {
  maximumCapacity : float;
  refillRate : float;
  parent : option ref
}.

Record HierarchicalTokenBucket := {
  options : HierarchicalTokenBucketOptions;
  lastTimestamp : float;
  capacity : float;
  firstTimestamp : option float;
  count : Z
}.

Record World := {
  heap : list HierarchicalTokenBucket;
  clock : float
}.

Definition set_lastTimestamp (v : float) (b : HierarchicalTokenBucket) :=
  {| options := options b; lastTimestamp := v; capacity := capacity b;
     firstTimestamp := firstTimestamp b; count := count b |}.

Definition set_capacity (v : float) (b : HierarchicalTokenBucket) :=
  {| options := options b; lastTimestamp := lastTimestamp b; capacity := v;
     firstTimestamp := firstTimestamp b; count := count b |}.

Definition set_firstTimestamp (v : option float)
    (b : HierarchicalTokenBucket) :=
  {| options := options b; lastTimestamp := lastTimestamp b;
     capacity := capacity b; firstTimestamp := v; count := count b |}.

Definition set_count (v : Z) (b : HierarchicalTokenBucket) :=
  {| options := options b; lastTimestamp := lastTimestamp b;
     capacity := capacity b; firstTimestamp := firstTimestamp b; count := v |}.

Inductive Res (A : Type) :=
| Val (a : A) (w : World)
| Throw (e : exn)
| Stuck.
Arguments Val {A} a w.
Arguments Throw {A} e.
Arguments Stuck {A}.

Definition M (A : Type) := World -> Res A.

Definition ret {A} (a : A) : M A := fun w => Val a w.

Definition bind {A B} (m : M A) (k : A -> M B) : M B :=
  fun w =>
    match m w with
    | Val a w' => k a w'
    | Throw e => Throw e
    | Stuck => Stuck
    end.

Declare Scope double_scope.
Notation "'let!' x ':=' m 'in' k" := (bind m (fun x => k))
  (at level 10, x name, m at level 100, k at level 200) : double_scope.
Notation "'do!' m 'in' k" := (bind m (fun _ => k))
  (at level 10, m at level 100, k at level 200) : double_scope.
Local Open Scope double_scope.

Definition throw {A} (e : exn) : M A := fun _ => Throw e.

Definition Date_now : M float := fun w => Val (clock w) w.

Definition read (this : ref) : M HierarchicalTokenBucket :=
  fun w =>
    match heap w !! this with
    | Some b => Val b w
    | None => Stuck
    end.

Definition modify (this : ref)
    (f : HierarchicalTokenBucket -> HierarchicalTokenBucket) : M unit :=
  fun w =>
    match heap w !! this with
    | Some b => Val tt {| heap := <[this := f b]> (heap w); clock := clock w |}
    | None => Stuck
    end.

Definition alloc (b : HierarchicalTokenBucket) : M ref :=
  fun w => Val (length (heap w)) {| heap := heap w ++ [b]; clock := clock w |}.

Definition setSystemTime (t : float) (w : World) : World :=
  {| heap := heap w; clock := t |}.

Definition advanceTimersByTime (ms : float) (w : World) : World :=
  {| heap := heap w; clock := clock w + ms |}.

Definition empty_world (t : float) : World := {| heap := []; clock := t |}.

Definition constructor (opts : HierarchicalTokenBucketOptions) : M ref :=
  if negb (js_ge (maximumCapacity opts) 1) then
    throw (Error "HierarchicalTokenBucket.maximumCapacity must be >= 1")
  else if negb (js_gt (refillRate opts) 0) then
    throw (Error "HierarchicalTokenBucket.refillRate must be > 0")
  else
    let! t := Date_now in
    alloc {| options := opts; lastTimestamp := t;
             capacity := maximumCapacity opts;
             firstTimestamp := None; count := 0 |}.

Record ChildOptions := {
  child_maximumCapacity : float;
  child_refillRate : float
}.

Definition child (this : ref) (opts : option ChildOptions) : M ref :=
  let! b := read this in
  constructor
    {| maximumCapacity :=
         match opts with
         | Some o => child_maximumCapacity o
         | None => maximumCapacity (options b)
         end;
       refillRate :=
         match opts with
         | Some o => child_refillRate o
         | None => refillRate (options b)
         end;
       parent := Some this |}.

Definition addOneToMetrics (this : ref) : M unit :=
  let! b := read this in
  do! (if js_not (firstTimestamp b) then
         let! t := Date_now in modify this (set_firstTimestamp (Some t))
       else ret tt) in
  modify this (fun b => set_count (count b + 1)%Z b).

Definition refreshCapacity (this : ref) : M unit :=
  let! currentTimestamp := Date_now in
  let! b := read this in
  let elapsedTimeInSeconds := (currentTimestamp - lastTimestamp b) / 1000 in
  do! modify this (set_lastTimestamp currentTimestamp) in
  modify this (fun b =>
    set_capacity
      (Math_min (capacity b + refillRate (options b) * elapsedTimeInSeconds)
                (maximumCapacity (options b))) b).

Definition minus_one (b : HierarchicalTokenBucket) : HierarchicalTokenBucket :=
  set_capacity (capacity b - 1) b.

Definition take_body (parent_take : ref -> M float) (this : ref) : M float :=
  do! addOneToMetrics this in
  do! refreshCapacity this in
  let minTimeToWait := 0 in
  let! b := read this in
  let timeForThisToWait := (1 - capacity b) / refillRate (options b) in
  let! timeForParentToWait :=
    match parent (options b) with
    | Some p => let! t := parent_take p in ret (js_or_0 (Some t))
    | None => ret (js_or_0 None)
    end in
  do! modify this minus_one in
  ret (Math_max minTimeToWait timeForThisToWait timeForParentToWait).

Fixpoint take_fuel (fuel : nat) (this : ref) : M float :=
  match fuel with
  | O => fun _ => Stuck
  | S fuel' => take_body (take_fuel fuel') this
  end.

Definition take (this : ref) : M float :=
  fun w => take_fuel (length (heap w)) this w.

Fixpoint takes (n : nat) (this : ref) : M (list float) :=
  match n with
  | O => ret []
  | S n' => let! t := take this in let! ts := takes n' this in ret (t :: ts)
  end.

Definition InvalidConfiguration {A} (r : Res A) : Prop :=
  r = Throw (Error "HierarchicalTokenBucket.maximumCapacity must be >= 1") \/
  r = Throw (Error "HierarchicalTokenBucket.refillRate must be > 0").

(** A world with one root bucket: options [(m, r)], full, last refilled at
    the present time [t], with the first-take timestamp [ft] and the count
    [n]. *)
Definition root_bucket (m r t : float) (ft : option float) (n : Z) : World :=
  {| heap :=
       [ {| options := {| maximumCapacity := m; refillRate := r;
                          parent := None |};
            lastTimestamp := t; capacity := m;
            firstTimestamp := ft; count := n |} ];
     clock := t |}.

End Double.

(** * Properties *)

Local Close Scope Z_scope.

Example three_levels_run :
  match three_levels (empty_world 1651708800000) with
  | Val t _ => Qeq_bool t 1 = true
  | _ => False
  end.
Proof. vm_compute. reflexivity. Qed.

Lemma options_counted t b : options (counted t b) = options b.
Proof. unfold counted. by destruct (js_not (firstTimestamp b)). Qed.

Lemma options_refreshed t b : options (refreshed t b) = options b.
Proof. reflexivity. Qed.

Lemma options_taken t b : options (taken t b) = options b.
Proof. apply options_counted. Qed.

Lemma store_lookup w i b b0 :
  heap w !! i = Some b0 -> heap (store w i b) !! i = Some b.
Proof.
  intros H. simpl. apply list_lookup_insert_eq. by eapply lookup_lt_Some.
Qed.

Lemma store_lookup_ne w i j b :
  i <> j -> heap (store w i b) !! j = heap w !! j.
Proof. intros H. simpl. by apply list_lookup_insert_ne. Qed.

Lemma store_store w i b1 b2 : store (store w i b1) i b2 = store w i b2.
Proof. unfold store; simpl. by rewrite list_insert_insert_eq. Qed.

Lemma store_length w i b : length (heap (store w i b)) = length (heap w).
Proof. simpl. apply length_insert. Qed.

Lemma read_run w i b : heap w !! i = Some b -> read i w = Val b w.
Proof. intros H. unfold read. by rewrite H. Qed.

Lemma modify_run w i b f :
  heap w !! i = Some b -> modify i f w = Val tt (store w i (f b)).
Proof. intros H. unfold modify. by rewrite H. Qed.

Lemma addOneToMetrics_run w this b :
  heap w !! this = Some b ->
  addOneToMetrics this w = Val tt (store w this (counted (clock w) b)).
Proof.
  intros H. unfold addOneToMetrics, bind, counted.
  rewrite (read_run _ _ _ H).
  destruct (js_not (firstTimestamp b)); simpl.
  - rewrite (modify_run _ _ _ _ H).
    erewrite modify_run by (eapply store_lookup; eauto).
    by rewrite store_store.
  - unfold ret. by rewrite (modify_run _ _ _ _ H).
Qed.

Lemma refreshCapacity_run w this b :
  heap w !! this = Some b ->
  refreshCapacity this w = Val tt (store w this (refreshed (clock w) b)).
Proof.
  intros H. unfold refreshCapacity, bind, Date_now.
  rewrite (read_run _ _ _ H), (modify_run _ _ _ _ H).
  erewrite modify_run by (eapply store_lookup; eauto).
  by rewrite store_store.
Qed.

(** The body of [take] on a bucket [b]: the parent is called on the world in
    which [b] has been counted and refilled; [b] is debited when it returns. *)
Lemma take_body_run k w this b :
  heap w !! this = Some b ->
  let b1 := refreshed (clock w) (counted (clock w) b) in
  take_body k this w =
    match parent (options b) with
    | None =>
        Val (Math_max 0 (timeToWait b1) 0) (store w this (minus_one b1))
    | Some p =>
        match k p (store w this b1) with
        | Val t w2 =>
            match heap w2 !! this with
            | Some b2 =>
                Val (Math_max 0 (timeToWait b1) (js_or_0 (Some t)))
                    (store w2 this (minus_one b2))
            | None => Stuck
            end
        | Throw e => Throw e
        | Stuck => Stuck
        end
    end.
Proof.
  intros H b1. unfold take_body, bind.
  rewrite (addOneToMetrics_run _ _ _ H).
  erewrite refreshCapacity_run by (eapply store_lookup; eauto).
  rewrite store_store.
  erewrite read_run by (eapply store_lookup; eauto).
  rewrite options_refreshed, options_counted.
  destruct (parent (options b)) as [p|]; simpl.
  - fold b1. destruct (k p (store w this b1)) as [t w2| |]; try done.
    unfold ret, modify. by destruct (heap w2 !! this).
  - unfold ret. erewrite modify_run by (eapply store_lookup; eauto).
    by rewrite store_store.
Qed.

Ltac q_minmax :=
  unfold Math_max, Math_min in *;
  repeat match goal with
  | |- context [Qmax ?a ?b] =>
      let m := fresh "m" in
      let H := fresh "Hm" in
      pose proof (Q.max_spec a b) as H;
      set (m := Qmax a b) in *; clearbody m; destruct H as [[? ?]|[? ?]]
  | _ : context [Qmax ?a ?b] |- _ =>
      let m := fresh "m" in
      let H := fresh "Hm" in
      pose proof (Q.max_spec a b) as H;
      set (m := Qmax a b) in *; clearbody m; destruct H as [[? ?]|[? ?]]
  | |- context [Qmin ?a ?b] =>
      let m := fresh "m" in
      let H := fresh "Hm" in
      pose proof (Q.min_spec a b) as H;
      set (m := Qmin a b) in *; clearbody m; destruct H as [[? ?]|[? ?]]
  | _ : context [Qmin ?a ?b] |- _ =>
      let m := fresh "m" in
      let H := fresh "Hm" in
      pose proof (Q.min_spec a b) as H;
      set (m := Qmin a b) in *; clearbody m; destruct H as [[? ?]|[? ?]]
  end;
  try lra.

Lemma js_or_0_Some (q : Q) : (js_or_0 (Some q) == q)%Q.
Proof.
  simpl. destruct (Qeq_bool q 0) eqn:E; [|reflexivity].
  apply Qeq_bool_iff in E. by rewrite E.
Qed.

Lemma max_list_nonneg l : (0 <= max_list l)%Q.
Proof. induction l as [|a l IH]; simpl; [lra|]. q_minmax. Qed.

Lemma max_list_ge l a : a ∈ l -> (a <= max_list l)%Q.
Proof.
  induction 1 as [a l|a b l _ IH]; simpl; q_minmax.
Qed.

Lemma max_list_attained l :
  (max_list l == 0)%Q \/ exists a, a ∈ l /\ (max_list l == a)%Q.
Proof.
  induction l as [|a l IH]; simpl; [by left|].
  destruct (Q.max_spec a (max_list l)) as [[_ E]|[_ E]].
  - destruct IH as [IH|(b & Hb & IH)].
    + left. by rewrite E.
    + right. exists b. split; [by right|]. by rewrite E.
  - right. exists a. split; [by left|done].
Qed.

Lemma max_list_mono l1 l2 :
  Forall2 Qle l1 l2 -> (max_list l1 <= max_list l2)%Q.
Proof. induction 1; simpl; [lra|]. q_minmax. Qed.

Lemma Math_max_cons a t l :
  (t == max_list l)%Q -> (Math_max 0 a t == max_list (a :: l))%Q.
Proof.
  intros E. pose proof (max_list_nonneg l). simpl. q_minmax.
Qed.

Lemma Qle_bool_false x y : Qle_bool x y = false <-> (y < x)%Q.
Proof.
  split.
  - intros E. apply Qnot_le_lt. intros H%Qle_bool_iff. congruence.
  - intros H. destruct (Qle_bool x y) eqn:E; [|done].
    apply Qle_bool_iff in E. lra.
Qed.

Lemma wf_bucketb_sound i b : wf_bucketb i b = true -> wf_bucket i b.
Proof.
  unfold wf_bucketb. rewrite !andb_true_iff, negb_true_iff.
  intros [[[Hp Hm] Hr] Hc]. split.
  - intros p E. rewrite E in Hp. by apply Nat.ltb_lt.
  - by apply Qle_bool_iff.
  - by apply Qle_bool_false.
  - by apply Qle_bool_iff.
Qed.

Lemma wf_from_sound h k :
  wf_from k h = true ->
  forall i b, h !! i = Some b -> wf_bucket (k + i) b.
Proof.
  revert k. induction h as [|b0 h IH]; intros k H i b Hi; [done|].
  simpl in H. apply andb_true_iff in H as [H0 H].
  destruct i as [|i]; simpl in Hi.
  - injection Hi as <-. rewrite Nat.add_0_r. by apply wf_bucketb_sound.
  - replace (k + S i)%nat with (S k + i)%nat by lia. by apply IH.
Qed.

Lemma wfb_sound w : wfb w = true -> wf w.
Proof. intros H i b Hi. by apply (wf_from_sound _ 0%nat H i). Qed.

Lemma wf_parents_below w : wf w -> parents_below (heap w).
Proof. intros H i b p Hi Hp. by apply (wf_parent _ _ (H i b Hi)). Qed.

Lemma chain_fuel_ext fuel h h' this :
  (forall i, parent_at h i = parent_at h' i) ->
  chain_fuel fuel h this = chain_fuel fuel h' this.
Proof.
  intros E. revert this. induction fuel as [|fuel IH]; intros this; [done|].
  simpl. specialize (E this). unfold parent_at in E.
  destruct (h !! this) as [b|], (h' !! this) as [b'|]; simpl in E; try done.
  injection E as ->. f_equal. destruct (parent (options b')); [apply IH|done].
Qed.

Lemma chain_fuel_le fuel h this i :
  parents_below h -> i ∈ chain_fuel fuel h this -> (i <= this)%nat.
Proof.
  intros Hp. revert this. induction fuel as [|fuel IH]; intros this; simpl.
  - by intros ?%elem_of_nil.
  - destruct (h !! this) as [b|] eqn:Hb; [|by intros ?%elem_of_nil].
    intros [->|Hi]%elem_of_cons; [lia|].
    destruct (parent (options b)) as [p|] eqn:Ep; [|by apply elem_of_nil in Hi].
    specialize (IH _ Hi). specialize (Hp _ _ _ Hb Ep). lia.
Qed.

Lemma chain_fuel_lookup fuel h this i :
  i ∈ chain_fuel fuel h this -> is_Some (h !! i).
Proof.
  revert this. induction fuel as [|fuel IH]; intros this; simpl.
  - by intros ?%elem_of_nil.
  - destruct (h !! this) as [b|] eqn:Hb; [|by intros ?%elem_of_nil].
    intros [->|Hi]%elem_of_cons; [by eexists|].
    destruct (parent (options b)) as [p|]; [by eapply IH|].
    by apply elem_of_nil in Hi.
Qed.

Lemma timeToWait_counted t b :
  timeToWait (refreshed t (counted t b)) = timeToWait (refreshed t b).
Proof. unfold counted. by destruct (js_not (firstTimestamp b)). Qed.

Lemma take_chain_lookup t c h i :
  take_chain t c h !! i =
    (fun b => if bool_decide (i ∈ c) then taken t b else b) <$> h !! i.
Proof. unfold take_chain. by rewrite list_lookup_imap. Qed.

Lemma parent_at_take_chain t c h i :
  parent_at (take_chain t c h) i = parent_at h i.
Proof.
  unfold parent_at. rewrite take_chain_lookup.
  destruct (h !! i) as [b|]; simpl; [|done].
  f_equal. destruct (bool_decide _); by rewrite ?options_taken.
Qed.

Lemma parent_at_store w this b b' i :
  heap w !! this = Some b -> options b' = options b ->
  parent_at (heap (store w this b')) i = parent_at (heap w) i.
Proof.
  intros H E. unfold parent_at. destruct (decide (this = i)) as [<-|Hne].
  - erewrite store_lookup by eauto. rewrite H. simpl. by rewrite E.
  - by rewrite store_lookup_ne.
Qed.

(** ** What [take] does to the heap, and what it returns *)

Lemma parents_below_store w this b b' :
  heap w !! this = Some b -> options b' = options b ->
  parents_below (heap w) -> parents_below (heap (store w this b')).
Proof.
  intros H E Hp i bi p Hi Hpi.
  destruct (decide (this = i)) as [<-|Hne].
  - erewrite store_lookup in Hi by eauto. injection Hi as <-.
    rewrite E in Hpi. by eapply Hp.
  - rewrite store_lookup_ne in Hi by done. by eapply Hp.
Qed.

Lemma wait_at_store_ne t w this b i :
  this <> i -> wait_at t (heap (store w this b)) i = wait_at t (heap w) i.
Proof. intros H. unfold wait_at. by rewrite store_lookup_ne. Qed.

Lemma take_fuel_spec fuel this w b :
  parents_below (heap w) -> heap w !! this = Some b -> this < fuel ->
  exists t,
    take_fuel fuel this w =
      Val t {| heap := take_chain (clock w) (chain_fuel fuel (heap w) this)
                         (heap w);
               clock := clock w |} /\
    (t == max_list (map (wait_at (clock w) (heap w))
                        (chain_fuel fuel (heap w) this)))%Q.
Proof.
  revert this w b. induction fuel as [|fuel IH]; intros this w b Hp Hb Hf.
  { lia. }
  simpl take_fuel. rewrite (take_body_run _ _ _ _ Hb).
  simpl chain_fuel. rewrite Hb.
  set (b1 := refreshed (clock w) (counted (clock w) b)).
  assert (Eb1 : options b1 = options b) by apply options_counted.
  assert (Hw : wait_at (clock w) (heap w) this = timeToWait b1).
  { unfold wait_at, b1. by rewrite Hb, timeToWait_counted. }
  destruct (parent (options b)) as [p|] eqn:Ep.
  - pose proof (Hp _ _ _ Hb Ep) as Hlt.
    destruct (lookup_lt_is_Some_2 (heap w) p) as [bp Hbp].
    { apply lookup_lt_Some in Hb. lia. }
    set (w1 := store w this b1).
    assert (Hc : chain_fuel fuel (heap w1) p = chain_fuel fuel (heap w) p).
    { apply chain_fuel_ext. intros i. by eapply parent_at_store. }
    destruct (IH p w1 bp) as (t' & Hrun & Ht').
    { by eapply parents_below_store. }
    { unfold w1. rewrite store_lookup_ne by lia. done. }
    { lia. }
    rewrite Hrun, Hc in *. clear Hrun. subst w1. cbn [store heap clock] in *.
    assert (Hnotin : this ∉ chain_fuel fuel (heap w) p).
    { intros Hin%(chain_fuel_le _ _ _ _ Hp). lia. }
    rewrite take_chain_lookup.
    rewrite list_lookup_insert_eq by (by eapply lookup_lt_Some).
    cbn [fmap option_fmap option_map]. rewrite bool_decide_eq_false_2 by done.
    eexists. split.
    + f_equal. unfold store. cbn [heap clock]. f_equal.
      apply list_eq. intros i. rewrite !take_chain_lookup.
      destruct (decide (this = i)) as [<-|Hne].
      * rewrite list_lookup_insert_eq.
        2:{ unfold take_chain. rewrite length_imap, length_insert.
            by eapply lookup_lt_Some. }
        rewrite Hb. simpl. rewrite bool_decide_eq_true_2 by left. done.
      * rewrite list_lookup_insert_ne by done.
        rewrite take_chain_lookup, list_lookup_insert_ne by done.
        destruct (heap w !! i) as [bi|]; [|done]. simpl. f_equal.
        destruct (decide (i ∈ chain_fuel fuel (heap w) p)) as [Hin|Hout].
        -- rewrite !bool_decide_eq_true_2; [done|by right|done].
        -- rewrite !bool_decide_eq_false_2; [done| |done].
           intros [?|?]%elem_of_cons; congruence.
    + cbn [map]. rewrite Hw. apply Math_max_cons.
      rewrite js_or_0_Some, Ht'.
      replace (map (wait_at (clock w) (<[this:=b1]> (heap w)))
                 (chain_fuel fuel (heap w) p))
        with (map (wait_at (clock w) (heap w)) (chain_fuel fuel (heap w) p));
        [reflexivity|].
      apply map_ext_in. intros i Hi%list_elem_of_In.
      symmetry. apply (wait_at_store_ne _ w). intros <-. done.
  - eexists. split.
    + f_equal. unfold store. f_equal. apply list_eq. intros i.
      rewrite take_chain_lookup.
      destruct (decide (this = i)) as [<-|Hne].
      * rewrite list_lookup_insert_eq by (by eapply lookup_lt_Some).
        rewrite Hb. simpl. rewrite bool_decide_eq_true_2 by left. done.
      * rewrite list_lookup_insert_ne by done.
        destruct (heap w !! i) as [bi|]; [|done]. simpl.
        rewrite bool_decide_eq_false_2; [done|].
        intros [?|[]%elem_of_nil]%elem_of_cons; congruence.
    + cbn [map]. rewrite Hw. by apply Math_max_cons.
Qed.

(** ** The methods keep worlds well formed *)

Lemma constructor_run opts w :
  (1 <= maximumCapacity opts)%Q -> (0 < refillRate opts)%Q ->
  constructor opts w =
    Val (length (heap w))
        {| heap := heap w ++ [fresh opts (clock w)]; clock := clock w |}.
Proof.
  intros Hm Hr. unfold constructor, js_ge, js_gt.
  apply Qle_bool_iff in Hm. apply Qle_bool_false in Hr.
  by rewrite Hm, Hr.
Qed.

Lemma constructor_Val opts w this w' :
  constructor opts w = Val this w' ->
  (1 <= maximumCapacity opts)%Q /\ (0 < refillRate opts)%Q /\
  this = length (heap w) /\
  w' = {| heap := heap w ++ [fresh opts (clock w)]; clock := clock w |}.
Proof.
  unfold constructor, js_ge, js_gt.
  destruct (Qle_bool 1 (maximumCapacity opts)) eqn:Hm; [|done].
  destruct (Qle_bool (refillRate opts) 0) eqn:Hr; [done|].
  apply Qle_bool_iff in Hm. apply Qle_bool_false in Hr. simpl.
  unfold bind, Date_now, alloc. intros [= <- <-]. done.
Qed.

Lemma constructor_not_Stuck opts w : constructor opts w <> Stuck.
Proof.
  unfold constructor.
  destruct (negb _); [done|]. destruct (negb _); done.
Qed.

Lemma wf_fresh i opts t :
  (forall p, parent opts = Some p -> p < i) ->
  (1 <= maximumCapacity opts)%Q -> (0 < refillRate opts)%Q ->
  wf_bucket i (fresh opts t).
Proof. intros. split; simpl; [done..|lra]. Qed.

Lemma wf_alloc w b :
  wf w -> wf_bucket (length (heap w)) b ->
  wf {| heap := heap w ++ [b]; clock := clock w |}.
Proof.
  intros Hw Hb i bi. simpl. intros [[_ Hi]|[-> Hi]]%lookup_snoc_Some.
  - by apply Hw.
  - by subst.
Qed.

Lemma wf_constructor opts w this w' :
  wf w -> (forall p, parent opts = Some p -> p < length (heap w)) ->
  constructor opts w = Val this w' -> wf w'.
Proof.
  intros Hw Hp (Hm & Hr & -> & ->)%constructor_Val.
  apply wf_alloc; [done|]. by apply wf_fresh.
Qed.

Lemma child_Val w this opts c w' :
  child this opts w = Val c w' ->
  exists b, heap w !! this = Some b /\
    constructor
      {| maximumCapacity :=
           match opts with
           | Some o => child_maximumCapacity o
           | None => maximumCapacity (options b)
           end;
         refillRate :=
           match opts with
           | Some o => child_refillRate o
           | None => refillRate (options b)
           end;
         parent := Some this |} w = Val c w'.
Proof.
  unfold child, bind, read. destruct (heap w !! this) as [b|]; [|done].
  intros H. by exists b.
Qed.

Lemma child_run w this opts b :
  heap w !! this = Some b ->
  child this opts w =
    constructor
      {| maximumCapacity :=
           match opts with
           | Some o => child_maximumCapacity o
           | None => maximumCapacity (options b)
           end;
         refillRate :=
           match opts with
           | Some o => child_refillRate o
           | None => refillRate (options b)
           end;
         parent := Some this |} w.
Proof. intros H. unfold child, bind. by rewrite (read_run _ _ _ H). Qed.

Lemma wf_child w this opts c w' :
  wf w -> child this opts w = Val c w' -> wf w'.
Proof.
  intros Hw (b & Hb & H)%child_Val. eapply wf_constructor; [done| |done].
  simpl. intros p [= <-]. by eapply lookup_lt_Some.
Qed.

Lemma inject_Z_sub_diag t : (inject_Z (t - t) / 1000 == 0)%Q.
Proof. by rewrite Z.sub_diag. Qed.

Lemma capacity_refreshed_le t b :
  (capacity (refreshed t b) <= maximumCapacity (options b))%Q.
Proof. simpl. q_minmax. Qed.

Lemma wf_taken i t b : wf_bucket i b -> wf_bucket i (taken t b).
Proof.
  intros [Hp Hm Hr Hc]. split; rewrite ?options_taken; try done.
  unfold taken. pose proof (capacity_refreshed_le t (counted t b)) as H.
  rewrite options_counted in H. simpl in *. lra.
Qed.

Lemma wf_take_chain t c w :
  wf w -> wf {| heap := take_chain t c (heap w); clock := clock w |}.
Proof.
  intros Hw i b. simpl. rewrite take_chain_lookup.
  destruct (heap w !! i) as [bi|] eqn:Hi; [|done]. simpl. intros [= <-].
  destruct (bool_decide _); [apply wf_taken|]; by apply Hw.
Qed.

(** [take] returns, on every bucket of a well-formed world. *)
Lemma take_run w this b :
  wf w -> heap w !! this = Some b ->
  exists t,
    take this w =
      Val t {| heap := take_chain (clock w) (chain w this) (heap w);
               clock := clock w |} /\
    (t == max_list (map (wait_at (clock w) (heap w)) (chain w this)))%Q.
Proof.
  intros Hw Hb. unfold take, chain.
  eapply take_fuel_spec; [by apply wf_parents_below|done|].
  by eapply lookup_lt_Some.
Qed.

Lemma wf_take w this t w' : wf w -> take this w = Val t w' -> wf w'.
Proof.
  intros Hw H. destruct (heap w !! this) as [b|] eqn:Hb.
  - destruct (take_run w this b Hw Hb) as (t' & E & _).
    rewrite E in H. injection H as _ <-. by apply wf_take_chain.
  - unfold take in H. destruct (length (heap w)); [done|].
    simpl in H. unfold take_body, bind, addOneToMetrics, bind, read in H.
    by rewrite Hb in H.
Qed.

Lemma metadata_fuel_pure fuel this w m w' :
  metadata_fuel fuel this w = Val m w' -> w' = w.
Proof.
  revert this w m w'. induction fuel as [|fuel IH]; intros this w m w'; [done|].
  simpl. unfold bind, read. destruct (heap w !! this) as [b|]; [|done].
  destruct (parent (options b)) as [p|].
  - destruct (metadata_fuel fuel p w) as [mp wp| |] eqn:E; try done.
    apply IH in E as ->. unfold ret. by intros [= _ <-].
  - unfold ret. by intros [= _ <-].
Qed.

Lemma metadata_pure this w m w' : metadata this w = Val m w' -> w' = w.
Proof. apply metadata_fuel_pure. Qed.

Lemma reachable_wf w : reachable w -> wf w.
Proof.
  induction 1 as [t|t w _ IH|ms w _ IH|opts w this w' _ IH Hp H
                  |this opts w c w' _ IH H|this w t w' _ IH H
                  |this w m w' _ IH H].
  - intros i b Hi. done.
  - done.
  - done.
  - by eapply wf_constructor.
  - by eapply wf_child.
  - by eapply wf_take.
  - by apply metadata_pure in H as ->.
Qed.

(** ** The code on doubles *)

(** The tests "should take one token from every parent" and "should return
    refillRate * elapsedTime if capacity was previously zero", run on
    doubles: they return [1] and ten times [0] followed by [1/10], as on
    the rationals. *)
Example double_three_levels :
  exists t w,
    Double.bind
      (Double.constructor
         {| Double.maximumCapacity := 10; Double.refillRate := 1;
            Double.parent := None |})
      (fun g =>
         Double.bind
           (Double.child g
              (Some {| Double.child_maximumCapacity := 100;
                       Double.child_refillRate := 10 |}))
           (fun p =>
              Double.bind
                (Double.child p
                   (Some {| Double.child_maximumCapacity := 1000;
                            Double.child_refillRate := 100 |}))
                (fun c =>
                   Double.bind (Double.takes 10 c)
                     (fun _ => Double.take c))))
      (Double.empty_world 1651708800000) = Double.Val t w /\ t = 1%float.
Proof. eexists _, _. split; vm_compute; reflexivity. Qed.

Example double_refill_scenario :
  exists ts w,
    Double.bind
      (Double.constructor
         {| Double.maximumCapacity := 100; Double.refillRate := 10;
            Double.parent := None |})
      (fun bucket =>
         Double.bind (Double.takes 100 bucket)
           (fun _ w =>
              Double.takes 11 bucket (Double.advanceTimersByTime 1000 w)))
      (Double.empty_world 1651708800000) = Double.Val ts w /\
    ts = (replicate 10 0 ++ [1 / 10])%float.
Proof. eexists _, _. split; vm_compute; reflexivity. Qed.

(** *** Construction on doubles *)

Lemma double_constructor_invalid_iff opts w :
  Double.InvalidConfiguration (Double.constructor opts w) <->
  Double.js_ge (Double.maximumCapacity opts) 1 = false \/
  Double.js_gt (Double.refillRate opts) 0 = false.
Proof.
  unfold Double.InvalidConfiguration, Double.constructor.
  destruct (Double.js_ge (Double.maximumCapacity opts) 1); simpl.
  - destruct (Double.js_gt (Double.refillRate opts) 0); simpl.
    + unfold Double.bind, Double.Date_now, Double.alloc.
      split; [by intros [?|?]|by intros [?|?]].
    + split; [by right|]. intros _. by right.
  - split; [by left|]. intros _. by left.
Qed.

Lemma double_constructor_valid opts w :
  Double.js_ge (Double.maximumCapacity opts) 1 = true ->
  Double.js_gt (Double.refillRate opts) 0 = true ->
  exists this w' b,
    Double.constructor opts w = Double.Val this w' /\
    Double.heap w' !! this = Some b /\
    Double.options b = opts /\
    Double.capacity b = Double.maximumCapacity opts /\
    Double.count b = 0%Z /\ Double.firstTimestamp b = None /\
    Double.lastTimestamp b = Double.clock w.
Proof.
  intros Hm Hr. unfold Double.constructor. rewrite Hm, Hr. simpl.
  unfold Double.bind, Double.Date_now, Double.alloc.
  eexists _, _,
    {| Double.options := opts; Double.lastTimestamp := Double.clock w;
       Double.capacity := Double.maximumCapacity opts;
       Double.firstTimestamp := None; Double.count := 0 |}.
  split; [reflexivity|]. split; [|done].
  simpl. by apply list_lookup_middle.
Qed.

(** *** A capacity that a debit does not lower *)

Lemma double_take_absorbed ft n :
  ft = None \/ ft = Some 1651708800000%float ->
  Double.take 0 (Double.root_bucket 1e16 1 1651708800000 ft n) =
    Double.Val 0%float
      (Double.root_bucket 1e16 1 1651708800000
         (Some 1651708800000%float) (n + 1)).
Proof. intros [->| ->]; reflexivity. Qed.

Lemma double_takes_absorbed k :
  forall ft n,
    ft = None \/ ft = Some 1651708800000%float ->
    exists ts w,
      Double.takes k 0 (Double.root_bucket 1e16 1 1651708800000 ft n) =
        Double.Val ts w /\
      Forall (fun t => t = 0%float) ts.
Proof.
  induction k as [|k IH]; intros ft n Hft.
  - eexists [], _. split; [reflexivity|constructor].
  - destruct (IH (Some 1651708800000%float) (n + 1)%Z) as (ts & w & Hts & Hz).
    { by right. }
    exists (0%float :: ts), w.
    change (Double.takes (S k) 0) with
      (Double.bind (Double.take 0)
         (fun t => Double.bind (Double.takes k 0)
                     (fun ts => Double.ret (t :: ts)))).
    unfold Double.bind at 1. rewrite (double_take_absorbed ft n Hft).
    unfold Double.bind. rewrite Hts. split; [reflexivity|by constructor].
Qed.

(** ** Construction *)

Lemma constructor_invalid_iff opts w :
  InvalidConfiguration (constructor opts w) <->
  (maximumCapacity opts < 1 \/ refillRate opts <= 0)%Q.
Proof.
  unfold InvalidConfiguration, constructor, js_ge, js_gt.
  destruct (Qle_bool 1 (maximumCapacity opts)) eqn:Hm; simpl.
  - apply Qle_bool_iff in Hm.
    destruct (Qle_bool (refillRate opts) 0) eqn:Hr; simpl.
    + apply Qle_bool_iff in Hr. split; [by right|]. intros _. by right.
    + apply Qle_bool_false in Hr. unfold bind, Date_now, alloc, throw.
      split; [by intros [?|?]|]. intros [?|?]; lra.
  - apply Qle_bool_false in Hm. split; [by left|]. intros _. by left.
Qed.

Lemma constructor_valid opts w :
  (1 <= maximumCapacity opts)%Q -> (0 < refillRate opts)%Q ->
  exists this w' b,
    constructor opts w = Val this w' /\ heap w' !! this = Some b /\
    options b = opts /\ capacity b = maximumCapacity opts /\
    count b = 0%Z /\ firstTimestamp b = None /\ lastTimestamp b = clock w.
Proof.
  intros Hm Hr. rewrite (constructor_run _ _ Hm Hr).
  eexists _, _, (fresh opts (clock w)). split; [done|]. split; [|done].
  simpl. by apply list_lookup_middle.
Qed.

(** On rationals the two guards read [maximumCapacity < 1] and
    [refillRate <= 0]. *)
Lemma constructor_on_rationals opts w :
  (InvalidConfiguration (constructor opts w) <->
     (maximumCapacity opts < 1 \/ refillRate opts <= 0)%Q) /\
  ((1 <= maximumCapacity opts)%Q -> (0 < refillRate opts)%Q ->
     exists this w' b,
       constructor opts w = Val this w' /\ heap w' !! this = Some b /\
       options b = opts /\ capacity b = maximumCapacity opts /\
       count b = 0%Z /\ firstTimestamp b = None /\
       lastTimestamp b = clock w) /\
  (forall this b o, heap w !! this = Some b ->
     (InvalidConfiguration (child this (Some o) w) <->
        (child_maximumCapacity o < 1 \/ child_refillRate o <= 0)%Q) /\
     ((1 <= child_maximumCapacity o)%Q -> (0 < child_refillRate o)%Q ->
        exists c w' b',
          child this (Some o) w = Val c w' /\ heap w' !! c = Some b' /\
          parent (options b') = Some this /\
          capacity b' = child_maximumCapacity o /\ count b' = 0%Z)).
Proof.
  split; [apply constructor_invalid_iff|].
  split; [apply constructor_valid|].
  intros this b o Hb. rewrite (child_run _ _ _ _ Hb). split.
  - apply constructor_invalid_iff.
  - intros Hm Hr.
    destruct (constructor_valid
                {| maximumCapacity := child_maximumCapacity o;
                   refillRate := child_refillRate o;
                   parent := Some this |} w Hm Hr)
      as (c & w' & b' & H & Hc & Ho & Hcap & Hn & _).
    exists c, w', b'. rewrite H. repeat split; try done. by rewrite Ho.
Qed.

(** C2 fails at [NaN].  [new HierarchicalTokenBucket] throws when
    [maximumCapacity] is [NaN], and when [refillRate] is, although [NaN < 1]
    and [NaN <= 0] are false. *)
Lemma constructor_throws_on_NaN :
  Double.constructor
    {| Double.maximumCapacity := nan; Double.refillRate := 1;
       Double.parent := None |} (Double.empty_world 1651708800000)
  = Double.Throw
      (Error "HierarchicalTokenBucket.maximumCapacity must be >= 1") /\
  (nan <? 1)%float = false /\ (1 <=? 0)%float = false /\
  Double.constructor
    {| Double.maximumCapacity := 1; Double.refillRate := nan;
       Double.parent := None |} (Double.empty_world 1651708800000)
  = Double.Throw (Error "HierarchicalTokenBucket.refillRate must be > 0") /\
  (1 <? 1)%float = false /\ (nan <=? 0)%float = false.
Proof. repeat split; reflexivity. Qed.

(** C2, as the code has it.  On doubles [constructor] throws one of its
    two configuration errors exactly when [maximumCapacity >= 1] is false
    or [refillRate > 0] is false, which both are at [NaN]; when both hold
    it returns a bucket whose capacity is [maximumCapacity] and whose count
    is [0].  [child] with explicit options behaves in the same way on them.
    On rationals the two guards fail exactly when [maximumCapacity < 1] or
    [refillRate <= 0]. *)
Theorem constructor_fails_iff_guard_false :
  (forall opts w,
     (Double.InvalidConfiguration (Double.constructor opts w) <->
        Double.js_ge (Double.maximumCapacity opts) 1 = false \/
        Double.js_gt (Double.refillRate opts) 0 = false) /\
     (Double.js_ge (Double.maximumCapacity opts) 1 = true ->
      Double.js_gt (Double.refillRate opts) 0 = true ->
      exists this w' b,
        Double.constructor opts w = Double.Val this w' /\
        Double.heap w' !! this = Some b /\
        Double.options b = opts /\
        Double.capacity b = Double.maximumCapacity opts /\
        Double.count b = 0%Z /\ Double.firstTimestamp b = None /\
        Double.lastTimestamp b = Double.clock w)) /\
  (forall this b o w,
     Double.heap w !! this = Some b ->
     (Double.InvalidConfiguration (Double.child this (Some o) w) <->
        Double.js_ge (Double.child_maximumCapacity o) 1 = false \/
        Double.js_gt (Double.child_refillRate o) 0 = false) /\
     (Double.js_ge (Double.child_maximumCapacity o) 1 = true ->
      Double.js_gt (Double.child_refillRate o) 0 = true ->
      exists c w' b',
        Double.child this (Some o) w = Double.Val c w' /\
        Double.heap w' !! c = Some b' /\
        Double.parent (Double.options b') = Some this /\
        Double.capacity b' = Double.child_maximumCapacity o /\
        Double.count b' = 0%Z)) /\
  (Double.js_ge nan 1 = false /\ Double.js_gt nan 0 = false) /\
  (forall opts w,
     (InvalidConfiguration (constructor opts w) <->
        (maximumCapacity opts < 1 \/ refillRate opts <= 0)%Q) /\
     ((1 <= maximumCapacity opts)%Q -> (0 < refillRate opts)%Q ->
        exists this w' b,
          constructor opts w = Val this w' /\ heap w' !! this = Some b /\
          options b = opts /\ capacity b = maximumCapacity opts /\
          count b = 0%Z /\ firstTimestamp b = None /\
          lastTimestamp b = clock w) /\
     (forall this b o, heap w !! this = Some b ->
        (InvalidConfiguration (child this (Some o) w) <->
           (child_maximumCapacity o < 1 \/ child_refillRate o <= 0)%Q) /\
        ((1 <= child_maximumCapacity o)%Q -> (0 < child_refillRate o)%Q ->
           exists c w' b',
             child this (Some o) w = Val c w' /\ heap w' !! c = Some b' /\
             parent (options b') = Some this /\
             capacity b' = child_maximumCapacity o /\ count b' = 0%Z))).
Proof.
  split; [|split; [|split; [by split|]]].
  - intros opts w. split.
    + apply double_constructor_invalid_iff.
    + apply double_constructor_valid.
  - intros this b o w Hb.
    assert (E : Double.child this (Some o) w =
                Double.constructor
                  {| Double.maximumCapacity := Double.child_maximumCapacity o;
                     Double.refillRate := Double.child_refillRate o;
                     Double.parent := Some this |} w).
    { unfold Double.child, Double.bind, Double.read. by rewrite Hb. }
    rewrite E. split.
    + apply double_constructor_invalid_iff.
    + intros Hm Hr.
      destruct (double_constructor_valid
                  {| Double.maximumCapacity := Double.child_maximumCapacity o;
                     Double.refillRate := Double.child_refillRate o;
                     Double.parent := Some this |} w Hm Hr)
        as (c & w' & b' & H & Hc & Ho & Hcap & Hn & _).
      exists c, w', b'. repeat split; try done. by rewrite Ho.
  - apply constructor_on_rationals.
Qed.

Lemma constructor_fails_iff_guard_false_witness :
  exists this w' b,
    Double.constructor
      {| Double.maximumCapacity := 100; Double.refillRate := 10;
         Double.parent := None |} (Double.empty_world 1651708800000)
    = Double.Val this w' /\
    Double.heap w' !! this = Some b /\
    Double.capacity b = 100%float /\ Double.count b = 0%Z.
Proof.
  destruct (proj2 (proj1 constructor_fails_iff_guard_false
                     {| Double.maximumCapacity := 100;
                        Double.refillRate := 10; Double.parent := None |}
                     (Double.empty_world 1651708800000))
              eq_refl eq_refl)
    as (this & w' & b & H & Hb & _ & Hc & Hn & _).
  exists this, w', b. repeat split; assumption.
Defined.

(** ** The bound on the capacity *)

Lemma reachable_one_bucket t0 t : reachable (one_bucket t0 t).
Proof.
  apply (reach_setSystemTime t (one_bucket t0 t0)).
  apply (reach_constructor
           {| maximumCapacity := 10; refillRate := 1; parent := None |}
           (empty_world t0) 0); [apply reach_empty|done|reflexivity].
Qed.

Lemma child_keeps w this opts c w' i b :
  child this opts w = Val c w' -> heap w !! i = Some b ->
  heap w' !! i = Some b.
Proof.
  intros (b0 & _ & (_ & _ & _ & ->)%constructor_Val)%child_Val Hi.
  simpl. by apply lookup_app_l_Some.
Qed.

(** The refill of 10 tokens on top of 98 stops at 100: a hundred takes
    return [0] and the next one returns [1/10]. *)
Example clamp_scenario_run :
  exists ts w',
    clamp_scenario (empty_world 1651708800000) = Val ts w' /\
    Forall2 Qeq ts (replicate 100 0%Q ++ [1 # 10]%Q).
Proof.
  eexists _, _. split; [by vm_compute|].
  repeat (constructor; [reflexivity|]). constructor.
Qed.



(** ** Deriving a child *)

(** C8.  [child] returns a bucket that was not in the heap before and whose
    parent is the receiver; without options its [maximumCapacity] and
    [refillRate] are the receiver's, and the call then returns; the
    receiver is the same record after the call as before. *)
Theorem child_leaves_receiver w this b opts :
  wf w -> heap w !! this = Some b ->
  (forall c w', child this opts w = Val c w' ->
     heap w !! c = None /\
     heap w' !! this = Some b /\
     exists bc,
       heap w' !! c = Some bc /\ parent (options bc) = Some this /\
       (opts = None ->
          maximumCapacity (options bc) = maximumCapacity (options b) /\
          refillRate (options bc) = refillRate (options b))) /\
  (opts = None -> exists c w', child this opts w = Val c w').
Proof.
  intros Hw Hb. split.
  - intros c w' H. pose proof (child_keeps _ _ _ _ _ _ _ H Hb) as Hk.
    rewrite (child_run _ _ _ _ Hb) in H.
    apply constructor_Val in H as (_ & _ & -> & ->).
    split; [by apply lookup_ge_None_2|]. split; [done|].
    eexists. split; [by apply list_lookup_middle|]. split; [done|].
    by intros ->.
  - intros ->. rewrite (child_run _ _ _ _ Hb).
    destruct (Hw _ _ Hb) as [_ Hm Hr _].
    rewrite constructor_run by done. by eexists _, _.
Qed.

Lemma child_leaves_receiver_witness :
  exists c w', child 0 None (two_levels 0) = Val c w'.
Proof.
  refine (proj2 (child_leaves_receiver (two_levels 0) 0 _ None _ _) _).
  - apply wfb_sound. reflexivity.
  - reflexivity.
  - reflexivity.
Defined.

(** ** The first-take timestamp *)

Lemma firstTimestamp_taken_unset t b :
  firstTimestamp b = None -> firstTimestamp (taken t b) = Some t.
Proof. intros H. unfold taken, counted. by rewrite H. Qed.

Lemma firstTimestamp_taken_kept t t0 b :
  firstTimestamp b = Some t0 -> t0 <> 0%Z ->
  firstTimestamp (taken t b) = Some t0.
Proof. intros H Hne. unfold taken, counted. rewrite H. by destruct t0. Qed.

(** C9, evaluated where the code departs from it.  A bucket is
    constructed and taken from while the clock reads [0]: the first [take]
    records [firstTimestamp = 0].  The clock is then moved to [5000], and
    the second [take] replaces the record by [5000]. *)
Theorem firstTimestamp_replaced_after_take_at_zero :
  reachable (one_bucket 0 0) /\
  exists t1 w1 b1 t2 w2 b2,
    take 0 (one_bucket 0 0) = Val t1 w1 /\
    heap w1 !! 0 = Some b1 /\ firstTimestamp b1 = Some 0%Z /\
    take 0 (setSystemTime 5000 w1) = Val t2 w2 /\
    heap w2 !! 0 = Some b2 /\ firstTimestamp b2 = Some 5000%Z.
Proof.
  split; [apply reachable_one_bucket|].
  eexists _, _, _, _, _, _. by vm_compute.
Qed.

(** ** The elapsed time *)

Lemma refill_not_lower t b :
  (lastTimestamp b <= t)%Z -> (0 < refillRate (options b))%Q ->
  (capacity b <= maximumCapacity (options b))%Q ->
  (0 <= elapsed t b)%Q /\ (capacity b <= capacity (refreshed t b))%Q.
Proof.
  intros Ht Hr Hc.
  assert (He : (0 <= elapsed t b)%Q).
  { unfold elapsed. apply Qle_shift_div_l; [done|].
    rewrite Qmult_0_l. change 0%Q with (inject_Z 0).
    rewrite <- Zle_Qle. lia. }
  split; [done|]. simpl.
  pose proof (Qmult_le_0_compat _ _ (Qlt_le_weak _ _ Hr) He).
  q_minmax.
Qed.




(** ** The order of the debit and the parent's [take] *)

Lemma take_body_debit_first_run k w this b :
  heap w !! this = Some b ->
  let b1 := refreshed (clock w) (counted (clock w) b) in
  take_body_debit_first k this w =
    match parent (options b) with
    | None =>
        Val (Math_max 0 (timeToWait b1) 0) (store w this (minus_one b1))
    | Some p =>
        match k p (store w this (minus_one b1)) with
        | Val t w2 => Val (Math_max 0 (timeToWait b1) (js_or_0 (Some t))) w2
        | Throw e => Throw e
        | Stuck => Stuck
        end
    end.
Proof.
  intros H b1. unfold take_body_debit_first, bind.
  rewrite (addOneToMetrics_run _ _ _ H).
  erewrite refreshCapacity_run by (eapply store_lookup; eauto).
  rewrite store_store.
  erewrite read_run by (eapply store_lookup; eauto).
  erewrite modify_run by (eapply store_lookup; eauto).
  rewrite store_store, options_refreshed, options_counted. fold b1.
  destruct (parent (options b)) as [p|]; simpl; [|done].
  subst b1. by destruct (k p _).
Qed.

Lemma take_debit_first_fuel_spec fuel this w b :
  parents_below (heap w) -> heap w !! this = Some b -> this < fuel ->
  exists t,
    take_debit_first_fuel fuel this w =
      Val t {| heap := take_chain (clock w) (chain_fuel fuel (heap w) this)
                         (heap w);
               clock := clock w |} /\
    (t == max_list (map (wait_at (clock w) (heap w))
                        (chain_fuel fuel (heap w) this)))%Q.
Proof.
  revert this w b. induction fuel as [|fuel IH]; intros this w b Hp Hb Hf.
  { lia. }
  simpl take_debit_first_fuel. rewrite (take_body_debit_first_run _ _ _ _ Hb).
  simpl chain_fuel. rewrite Hb.
  set (b1 := refreshed (clock w) (counted (clock w) b)).
  assert (Hw : wait_at (clock w) (heap w) this = timeToWait b1).
  { unfold wait_at, b1. by rewrite Hb, timeToWait_counted. }
  assert (Hin : forall i : nat, i = this -> i ∈ this :: @nil nat).
  { intros i ->. left. }
  destruct (parent (options b)) as [p|] eqn:Ep.
  - pose proof (Hp _ _ _ Hb Ep) as Hlt.
    destruct (lookup_lt_is_Some_2 (heap w) p) as [bp Hbp].
    { apply lookup_lt_Some in Hb. lia. }
    set (w1 := store w this (minus_one b1)).
    assert (Eb1 : options (minus_one b1) = options b) by apply options_counted.
    assert (Hc : chain_fuel fuel (heap w1) p = chain_fuel fuel (heap w) p).
    { apply chain_fuel_ext. intros i. by eapply parent_at_store. }
    destruct (IH p w1 bp) as (t' & Hrun & Ht').
    { by eapply parents_below_store. }
    { unfold w1. rewrite store_lookup_ne by lia. done. }
    { lia. }
    rewrite Hrun, Hc in *. clear Hrun. subst w1. cbn [store heap clock] in *.
    assert (Hnotin : this ∉ chain_fuel fuel (heap w) p).
    { intros Hi%(chain_fuel_le _ _ _ _ Hp). lia. }
    eexists. split.
    + f_equal. f_equal. apply list_eq. intros i. rewrite !take_chain_lookup.
      destruct (decide (this = i)) as [<-|Hne].
      * rewrite list_lookup_insert_eq by (by eapply lookup_lt_Some).
        rewrite Hb. simpl.
        rewrite bool_decide_eq_false_2, bool_decide_eq_true_2; [done|left|done].
      * rewrite list_lookup_insert_ne by done.
        destruct (heap w !! i) as [bi|]; [|done]. simpl. f_equal.
        destruct (decide (i ∈ chain_fuel fuel (heap w) p)) as [Hi|Hout].
        -- rewrite !bool_decide_eq_true_2; [done|by right|done].
        -- rewrite !bool_decide_eq_false_2; [done| |done].
           intros [?|?]%elem_of_cons; congruence.
    + cbn [map]. rewrite Hw. apply Math_max_cons.
      rewrite js_or_0_Some, Ht'.
      replace (map (wait_at (clock w) (<[this:=minus_one b1]> (heap w)))
                 (chain_fuel fuel (heap w) p))
        with (map (wait_at (clock w) (heap w)) (chain_fuel fuel (heap w) p));
        [reflexivity|].
      apply map_ext_in. intros i Hi%list_elem_of_In.
      symmetry. apply (wait_at_store_ne _ w). intros <-. done.
  - eexists. split.
    + f_equal. unfold store. f_equal. apply list_eq. intros i.
      rewrite take_chain_lookup.
      destruct (decide (this = i)) as [<-|Hne].
      * rewrite list_lookup_insert_eq by (by eapply lookup_lt_Some).
        rewrite Hb. simpl. rewrite bool_decide_eq_true_2 by left. done.
      * rewrite list_lookup_insert_ne by done.
        destruct (heap w !! i) as [bi|]; [|done]. simpl.
        rewrite bool_decide_eq_false_2; [done|].
        intros [?|[]%elem_of_nil]%elem_of_cons; congruence.
    + cbn [map]. rewrite Hw. by apply Math_max_cons.
Qed.



Lemma reachable_two_levels t : reachable (two_levels t).
Proof.
  apply (reach_child 0 (Some {| child_maximumCapacity := 10;
                                child_refillRate := 1 |})
           {| heap := [fresh {| maximumCapacity := 100; refillRate := 10;
                                parent := None |} t];
              clock := t |} 1); [|reflexivity].
  apply (reach_constructor
           {| maximumCapacity := 100; refillRate := 10; parent := None |}
           (empty_world t) 0); [apply reach_empty|done|reflexivity].
Qed.


(** ** One token from every bucket of the chain *)

Lemma chain_fuel_iff fuel h this i :
  parents_below h -> this < fuel -> this < length h ->
  i ∈ chain_fuel fuel h this <-> in_parent_chain h this i.
Proof.
  intros Hp. revert this.
  induction fuel as [|fuel IH]; intros this Hf Hl; [lia|].
  destruct (lookup_lt_is_Some_2 h this Hl) as [b Hb].
  simpl. rewrite Hb. split.
  - intros [->|Hi]%elem_of_cons; [apply chain_here|].
    destruct (parent (options b)) as [p|] eqn:Ep; [|by apply elem_of_nil in Hi].
    pose proof (Hp _ _ _ Hb Ep). eapply chain_up; [done..|].
    apply IH; [lia|lia|done].
  - intros H. inversion H as [|? b' p ? Hb' Ep Hc]; subst; [left|].
    right. rewrite Hb in Hb'. injection Hb' as <-. rewrite Ep.
    pose proof (Hp _ _ _ Hb Ep). apply IH; [lia|lia|done].
Qed.

Lemma chain_iff w this i b :
  wf w -> heap w !! this = Some b ->
  i ∈ chain w this <-> in_parent_chain (heap w) this i.
Proof.
  intros Hw Hb. apply lookup_lt_Some in Hb.
  by apply chain_fuel_iff; [apply wf_parents_below|..].
Qed.

Lemma capacity_taken t b :
  capacity (taken t b) = (capacity (refreshed t b) - 1)%Q.
Proof. unfold taken, counted. by destruct (js_not (firstTimestamp b)). Qed.

Lemma count_taken t b : count (taken t b) = (count b + 1)%Z.
Proof. unfold taken, counted. by destruct (js_not (firstTimestamp b)). Qed.



(** ** A root bucket, with the clock standing still *)

Lemma Qdiv_le_mono a b r : (0 < r -> a <= b -> a / r <= b / r)%Q.
Proof.
  intros Hr H. unfold Qdiv. apply Qmult_le_compat_r; [done|].
  by apply Qlt_le_weak, Qinv_lt_0_compat.
Qed.

Lemma Qdiv_pos a r : (0 < r -> 0 < a -> 0 < a / r)%Q.
Proof. intros Hr H. apply Qlt_shift_div_l; [done|]. lra. Qed.

Lemma Qdiv_nonpos a r : (0 < r -> a <= 0 -> a / r <= 0)%Q.
Proof. intros Hr H. apply Qle_shift_div_r; [done|]. lra. Qed.

Lemma wait_eq c c' r :
  (c == c' -> Qmax 0 ((1 - c) / r) == Qmax 0 ((1 - c') / r))%Q.
Proof. intros E. by rewrite E. Qed.

Lemma capacity_refreshed_steady t b :
  lastTimestamp b = t ->
  (capacity b <= maximumCapacity (options b))%Q ->
  (capacity (refreshed t b) == capacity b)%Q.
Proof.
  intros <- Hc. simpl. unfold elapsed.
  set (x := (refillRate (options b) * _)%Q).
  assert (Hx : (x == 0)%Q).
  { unfold x. rewrite inject_Z_sub_diag. ring. }
  clearbody x. q_minmax.
Qed.

Lemma take_root w this b :
  heap w !! this = Some b -> parent (options b) = None ->
  take this w =
    Val (Math_max 0 (timeToWait (refreshed (clock w) b)) 0)
        (store w this (taken (clock w) b)).
Proof.
  intros Hb Hp. unfold take.
  pose proof (lookup_lt_Some _ _ _ Hb) as Hl.
  destruct (length (heap w)) as [|n]; [lia|]. simpl.
  by rewrite (take_body_run _ _ _ _ Hb), Hp, timeToWait_counted.
Qed.

Lemma steady_take opts c this w :
  steady opts c this w -> parent opts = None ->
  (0 < refillRate opts)%Q -> (c <= maximumCapacity opts)%Q ->
  exists t w',
    take this w = Val t w' /\ clock w' = clock w /\
    (t == Qmax 0 ((1 - c) / refillRate opts))%Q /\
    steady opts (c - 1) this w'.
Proof.
  intros (b & Hb & <- & Hl & Hc) Hp Hr Hle.
  rewrite (take_root _ _ _ Hb Hp). eexists _, _. split; [done|].
  assert (E : (capacity (refreshed (clock w) b) == c)%Q).
  { rewrite capacity_refreshed_steady; [done..|]. by rewrite Hc. }
  split; [done|]. split.
  - unfold timeToWait, Math_max. rewrite options_refreshed, E. q_minmax.
  - exists (taken (clock w) b). split; [by eapply store_lookup|].
    split; [apply options_taken|]. split.
    + unfold taken, counted. by destruct (js_not _).
    + by rewrite capacity_taken, E.
Qed.

Lemma takes_steady n opts this :
  parent opts = None -> (0 < refillRate opts)%Q ->
  forall c w,
    steady opts c this w -> (c <= maximumCapacity opts)%Q ->
    exists ts w',
      takes n this w = Val ts w' /\ length ts = n /\
      (forall k t, ts !! k = Some t ->
         (t == Qmax 0 ((1 - (c - inject_Z (Z.of_nat k)))
                         / refillRate opts))%Q) /\
      steady opts (c - inject_Z (Z.of_nat n)) this w'.
Proof.
  intros Hp Hr. induction n as [|n IH]; intros c w Hs Hc.
  - exists [], w. split; [done|]. split; [done|]. split; [done|].
    destruct Hs as (b & ? & ? & ? & E). exists b. repeat split; try done.
    rewrite E. simpl. unfold Qminus. ring.
  - destruct (steady_take _ _ _ _ Hs Hp Hr Hc) as (t & w1 & Ht & _ & Et & Hs1).
    destruct (IH (c - 1)%Q w1 Hs1) as (ts & w2 & Hts & Hlen & Hk & Hs2); [lra|].
    exists (t :: ts), w2. simpl. unfold bind. rewrite Ht, Hts.
    split; [done|]. split; [by rewrite <- Hlen|].
    assert (HS : forall k : nat,
               (inject_Z (Z.of_nat (S k)) == inject_Z (Z.of_nat k) + 1)%Q).
    { intros k. rewrite Nat2Z.inj_succ, <- Z.add_1_r, inject_Z_plus.
      reflexivity. }
    split.
    + intros [|k] t0 H0; simpl in H0.
      * injection H0 as <-. rewrite Et. apply wait_eq.
        change (inject_Z (Z.of_nat 0)) with 0%Q. ring.
      * rewrite (Hk _ _ H0). apply wait_eq. rewrite HS. ring.
    + destruct Hs2 as (b2 & ? & ? & ? & E). exists b2. repeat split; try done.
      rewrite E, HS. ring.
Qed.

Lemma steady_fresh opts w :
  steady opts (maximumCapacity opts) (length (heap w))
    {| heap := heap w ++ [fresh opts (clock w)]; clock := clock w |}.
Proof.
  exists (fresh opts (clock w)). split; [by apply list_lookup_middle|].
  by repeat split.
Qed.


(** Below [2^53] the doubles drain as the rationals do: with
    [maximumCapacity = 2.5] the first two takes return [0] and the third
    returns [0.5]. *)
Example double_drains_at_2_5 :
  exists ts w,
    Double.takes 3 0 (Double.root_bucket 2.5 1 1651708800000 None 0)
    = Double.Val ts w /\
    ts = [0; 0; 0.5]%float.
Proof. eexists _, _. split; vm_compute; reflexivity. Qed.



(** C7.  A root bucket with [maximumCapacity = 100] and [refillRate = 10]
    holds no token, and one second has passed since its last refill.  Of
    the next eleven takes the first ten return [0] and the eleventh returns
    [1/10].  The test that empties a new bucket by a hundred takes and then
    moves the clock by one second arrives there. *)
Theorem ten_tokens_after_one_second w this b :
  heap w !! this = Some b ->
  options b =
    {| maximumCapacity := 100; refillRate := 10; parent := None |} ->
  (capacity b == 0)%Q -> clock w = (lastTimestamp b + 1000)%Z ->
  (exists ts w',
     takes 11 this w = Val ts w' /\ length ts = 11 /\
     (forall k t, k < 10 -> ts !! k = Some t -> (t == 0)%Q) /\
     (exists t, ts !! 10 = Some t /\ (t == 1 # 10)%Q)) /\
  (exists ts w',
     refill_scenario (empty_world 1651708800000) = Val ts w' /\
     Forall2 Qeq ts [0; 0; 0; 0; 0; 0; 0; 0; 0; 0; 1 # 10]%Q).
Proof.
  intros Hb Ho Hc Ht. split.
  2:{ eexists _, _. split; [by vm_compute|].
      repeat (constructor; [reflexivity|]). constructor. }
  set (opts := {| maximumCapacity := 100; refillRate := 10;
                  parent := None |}) in *.
  assert (Hp : parent (options b) = None) by by rewrite Ho.
  assert (E : (capacity (refreshed (clock w) b) == 10)%Q).
  { simpl. unfold elapsed. rewrite Ho, Ht. simpl.
    replace (lastTimestamp b + 1000 - lastTimestamp b)%Z with 1000%Z by lia.
    rewrite Hc. reflexivity. }
  assert (Hs : steady opts 9 this (store w this (taken (clock w) b))).
  { exists (taken (clock w) b). split; [by eapply store_lookup|].
    split; [by rewrite options_taken|]. split.
    - unfold taken, counted. by destruct (js_not _).
    - rewrite capacity_taken, E. reflexivity. }
  destruct (takes_steady 10 opts this eq_refl eq_refl 9%Q _ Hs)
    as (ts & w' & Hts & Hlen & Hk & _); [simpl; lra|].
  exists (Math_max 0 (timeToWait (refreshed (clock w) b)) 0 :: ts), w'.
  change (takes 11 this w)
    with ((let! t := take this in
           let! ts := takes 10 this in ret (t :: ts)) w).
  unfold bind. rewrite (take_root _ _ _ Hb Hp), Hts.
  split; [done|]. split; [simpl; by rewrite Hlen|].
  assert (Hq : forall k : nat, k < 9 ->
             (inject_Z (Z.of_nat k) <= 8)%Q).
  { intros k Hk9. change 8%Q with (inject_Z 8). rewrite <- Zle_Qle. lia. }
  split.
  - intros [|k] t Hk10 Hl; simpl in Hl.
    + injection Hl as <-. unfold timeToWait, Math_max.
      rewrite options_refreshed, Ho, E. reflexivity.
    + rewrite (Hk _ _ Hl). simpl refillRate.
      pose proof (Hq k ltac:(lia)).
      pose proof (Qdiv_nonpos (1 - (9 - inject_Z (Z.of_nat k))) 10
                    eq_refl).
      q_minmax.
  - destruct (lookup_lt_is_Some_2 ts 9) as [t Hl]; [lia|].
    exists t. split; [done|]. rewrite (Hk _ _ Hl). reflexivity.
Qed.

Lemma ten_tokens_after_one_second_witness :
  exists ts w',
    takes 11 0 (emptied_bucket 0) = Val ts w' /\ length ts = 11 /\
    (forall k t, k < 10 -> ts !! k = Some t -> (t == 0)%Q) /\
    (exists t, ts !! 10 = Some t /\ (t == 1 # 10)%Q).
Proof.
  refine (proj1 (ten_tokens_after_one_second (emptied_bucket 0) 0 _
                   eq_refl eq_refl _ eq_refl)).
  reflexivity.
Defined.

(** ** Successive takes *)

Lemma wait_taken_ge t b :
  (0 < refillRate (options b))%Q ->
  (timeToWait (refreshed t b)
   <= timeToWait (refreshed t (taken t b)))%Q.
Proof.
  intros Hr. unfold timeToWait.
  rewrite !options_refreshed, options_taken.
  apply Qdiv_le_mono; [done|].
  assert (Hl : lastTimestamp (taken t b) = t).
  { unfold taken, counted. by destruct (js_not _). }
  pose proof (capacity_refreshed_le t b) as Hle.
  rewrite (capacity_refreshed_steady t (taken t b) Hl).
  - rewrite capacity_taken. lra.
  - rewrite capacity_taken, options_taken. lra.
Qed.

Lemma Forall2_map_same {A} (P : Q -> Q -> Prop) (f g : A -> Q) l :
  (forall x, x ∈ l -> P (f x) (g x)) -> Forall2 P (map f l) (map g l).
Proof.
  induction l as [|x l IH]; intros H; simpl; constructor.
  - apply H. left.
  - apply IH. intros y Hy. apply H. by right.
Qed.

Lemma chain_take_chain t c w this :
  chain {| heap := take_chain t c (heap w); clock := clock w |} this
  = chain w this.
Proof.
  unfold chain, take_chain. cbn [heap]. rewrite length_imap.
  apply chain_fuel_ext. intros i. apply parent_at_take_chain.
Qed.

(** A second [take] at the same time waits at least as long. *)
Lemma take_again w this t w1 :
  wf w -> take this w = Val t w1 ->
  exists t' w2, take this w1 = Val t' w2 /\ (t <= t')%Q.
Proof.
  intros Hw H. destruct (heap w !! this) as [b|] eqn:Hb.
  2:{ unfold take in H. destruct (length (heap w)); [done|].
      simpl in H. unfold take_body, bind, addOneToMetrics, bind, read in H.
      by rewrite Hb in H. }
  destruct (take_run w this b Hw Hb) as (t0 & E & Et).
  rewrite E in H. injection H as -> <-.
  set (w1 := {| heap := take_chain (clock w) (chain w this) (heap w);
                clock := clock w |}).
  assert (Hw1 : wf w1) by by apply wf_take_chain.
  assert (Hb1 : is_Some (heap w1 !! this)).
  { apply lookup_lt_is_Some_2. unfold w1, take_chain. cbn [heap].
    rewrite length_imap. by eapply lookup_lt_Some. }
  destruct Hb1 as [b1 Hb1].
  destruct (take_run w1 this b1 Hw1 Hb1) as (t' & E' & Et').
  eexists t', _. split; [exact E'|]. rewrite Et, Et'.
  unfold w1. rewrite chain_take_chain. cbn [clock heap].
  apply max_list_mono, Forall2_map_same. intros i Hi.
  destruct (chain_fuel_lookup _ _ _ _ Hi) as [bi Hbi].
  unfold wait_at. rewrite take_chain_lookup, Hbi. simpl.
  rewrite bool_decide_eq_true_2 by done.
  apply wait_taken_ge. by apply (wf_refillRate _ _ (Hw _ _ Hbi)).
Qed.

Lemma takes_after n this :
  forall w t w1,
    wf w -> take this w = Val t w1 ->
    exists ts w2,
      takes n this w1 = Val ts w2 /\ length ts = n /\
      nondecreasing (t :: ts).
Proof.
  induction n as [|n IH]; intros w t w1 Hw Ht.
  - exists [], w1. split; [done|]. split; [done|]. by intros [|k] a a' ? ?.
  - destruct (take_again _ _ _ _ Hw Ht) as (t' & w2 & Ht' & Hle).
    destruct (IH w1 t' w2) as (ts & w3 & Hts & Hlen & Hnd);
      [by eapply wf_take|done|].
    exists (t' :: ts), w3. simpl. unfold bind. rewrite Ht', Hts.
    split; [done|]. split; [by rewrite Hlen|].
    intros [|k] a a' Ha Ha'; simpl in Ha, Ha'.
    + by injection Ha as <-; injection Ha' as <-.
    + by apply (Hnd k).
Qed.

Lemma takes_nondecreasing w this b n :
  wf w -> heap w !! this = Some b ->
  exists ts w',
    takes n this w = Val ts w' /\ length ts = n /\ nondecreasing ts.
Proof.
  intros Hw Hb. destruct n as [|n].
  - exists [], w. split; [done|]. split; [done|]. by intros [|k] a a' ? ?.
  - destruct (take_run w this b Hw Hb) as (t & Ht & _).
    destruct (takes_after n this _ _ _ Hw Ht) as (ts & w2 & Hts & Hlen & Hnd).
    exists (t :: ts), w2. simpl. unfold bind. rewrite Ht, Hts.
    split; [done|]. split; [by rewrite Hlen|done].
Qed.

(** * Further properties *)

(** ** [metadata] *)

Lemma metadata_fuel_indep w f1 f2 i bi :
  parents_below (heap w) -> heap w !! i = Some bi -> i < f1 -> i < f2 ->
  metadata_fuel f1 i w = metadata_fuel f2 i w.
Proof.
  intros Hp. revert f2 i bi.
  induction f1 as [|f1 IH]; intros f2 i bi Hi H1 H2; [lia|].
  destruct f2 as [|f2]; [lia|]. simpl. unfold bind.
  rewrite (read_run _ _ _ Hi).
  destruct (parent (options bi)) as [q|] eqn:Eq; [|done].
  pose proof (Hp _ _ _ Hi Eq) as Hq.
  destruct (lookup_lt_is_Some_2 (heap w) q) as [bq Hbq].
  { apply lookup_lt_Some in Hi. lia. }
  by rewrite (IH f2 q bq Hbq) by lia.
Qed.

Lemma metadata_fuel_run fuel this w b :
  parents_below (heap w) -> heap w !! this = Some b -> this < fuel ->
  exists pm,
    metadata_fuel fuel this w =
      Val (Metadata (maximumCapacity (options b)) (refillRate (options b))
             (metrics_of b) pm) w /\
    match parent (options b) with
    | None => pm = None
    | Some p => exists mp, pm = Some mp /\ metadata p w = Val mp w
    end.
Proof.
  intros Hp. revert this b.
  induction fuel as [|fuel IH]; intros this b Hb Hf; [lia|].
  simpl. unfold bind. rewrite (read_run _ _ _ Hb).
  destruct (parent (options b)) as [p|] eqn:Ep.
  - pose proof (Hp _ _ _ Hb Ep) as Hlt.
    destruct (lookup_lt_is_Some_2 (heap w) p) as [bp Hbp].
    { apply lookup_lt_Some in Hb. lia. }
    destruct (IH p bp Hbp) as (pm & Hrun & _); [lia|].
    rewrite Hrun. eexists. split; [done|]. eexists. split; [done|].
    unfold metadata. rewrite <- Hrun.
    apply (metadata_fuel_indep w _ _ p bp Hp Hbp); [|lia].
    by eapply lookup_lt_Some.
  - by eexists.
Qed.

Lemma metadata_fuel_depth fuel this w m w' :
  metadata_fuel fuel this w = Val m w' ->
  md_depth m = length (chain_fuel fuel (heap w) this).
Proof.
  revert this m w'. induction fuel as [|fuel IH]; intros this m w'; [done|].
  simpl. unfold bind, read. destruct (heap w !! this) as [b|]; [|done].
  destruct (parent (options b)) as [p|].
  - destruct (metadata_fuel fuel p w) as [mp wp| |] eqn:E; try done.
    pose proof (metadata_fuel_pure _ _ _ _ _ E) as ->.
    apply IH in E. unfold ret. intros [= <- _]. simpl. by rewrite E.
  - unfold ret. by intros [= <- _].
Qed.

(** X1.  On every bucket of a well-formed world [metadata] returns, and
    leaves the world as it is.  The snapshot carries the bucket's
    [maximumCapacity] and [refillRate] and its four metrics as they stand,
    without a refill; its [parent] entry is absent for a root and is the
    parent's own [metadata] otherwise; and it nests one snapshot per bucket
    of the parent chain. *)
Theorem metadata_is_snapshot_of_chain w this b :
  wf w -> heap w !! this = Some b ->
  exists m,
    metadata this w = Val m w /\
    md_maximumCapacity m = maximumCapacity (options b) /\
    md_refillRate m = refillRate (options b) /\
    md_metrics m = metrics_of b /\
    match parent (options b) with
    | None => md_parent m = None
    | Some p => exists mp, md_parent m = Some mp /\ metadata p w = Val mp w
    end /\
    md_depth m = length (chain w this).
Proof.
  intros Hw Hb.
  destruct (metadata_fuel_run (length (heap w)) this w b) as (pm & Hrun & Hpm).
  { by apply wf_parents_below. }
  { done. }
  { by eapply lookup_lt_Some. }
  eexists. split; [exact Hrun|]. repeat split; try done.
  by apply (metadata_fuel_depth _ _ _ _ _ Hrun).
Qed.

Lemma metadata_is_snapshot_of_chain_witness :
  exists m,
    metadata 1 (two_levels 0) = Val m (two_levels 0) /\ md_depth m = 2.
Proof.
  destruct (metadata_is_snapshot_of_chain (two_levels 0) 1
              (fresh {| maximumCapacity := 10; refillRate := 1;
                        parent := Some 0 |} 0)
              (wfb_sound (two_levels 0) eq_refl) eq_refl)
    as (m & H & _ & _ & _ & _ & Hd).
  exists m. split; [exact H|exact Hd].
Defined.

(** ** Several takes at one time *)

Lemma take_chain_iter_lookup n t c h i :
  Nat.iter n (take_chain t c) h !! i =
    (if bool_decide (i ∈ c) then Nat.iter n (taken t) else id) <$> h !! i.
Proof.
  induction n as [|n IH].
  - simpl. destruct (bool_decide (i ∈ c)); by destruct (h !! i).
  - rewrite Nat.iter_succ, take_chain_lookup, IH.
    destruct (bool_decide (i ∈ c)); by destruct (h !! i).
Qed.

Lemma iter_taken_options n t b : options (Nat.iter n (taken t) b) = options b.
Proof.
  induction n as [|n IH]; [done|]. by rewrite Nat.iter_succ, options_taken.
Qed.

Lemma iter_taken_count n t b :
  count (Nat.iter n (taken t) b) = (count b + Z.of_nat n)%Z.
Proof.
  induction n as [|n IH]; [simpl; lia|].
  rewrite Nat.iter_succ, count_taken, IH. lia.
Qed.

Lemma lastTimestamp_taken t b : lastTimestamp (taken t b) = t.
Proof. unfold taken, counted. by destruct (js_not _). Qed.

Lemma firstTimestamp_taken_Some t b : is_Some (firstTimestamp (taken t b)).
Proof.
  unfold taken, counted. destruct (js_not (firstTimestamp b)) eqn:E; simpl.
  - by eexists.
  - destruct (firstTimestamp b); [by eexists|done].
Qed.

Lemma capacity_taken_le t b :
  (capacity (taken t b) <= maximumCapacity (options (taken t b)))%Q.
Proof.
  rewrite capacity_taken, options_taken.
  pose proof (capacity_refreshed_le t b). lra.
Qed.

Lemma inject_Z_S (k : nat) :
  (inject_Z (Z.of_nat (S k)) == inject_Z (Z.of_nat k) + 1)%Q.
Proof. rewrite Nat2Z.inj_succ, <- Z.add_1_r, inject_Z_plus. reflexivity. Qed.

Lemma iter_taken_refreshed n t b :
  (capacity (refreshed t (Nat.iter n (taken t) b))
   == capacity (refreshed t b) - inject_Z (Z.of_nat n))%Q.
Proof.
  induction n as [|n IH].
  - simpl Nat.iter. change (inject_Z (Z.of_nat 0)) with 0%Q. ring.
  - rewrite Nat.iter_succ. rewrite capacity_refreshed_steady;
      [|apply lastTimestamp_taken|apply capacity_taken_le].
    rewrite capacity_taken, IH, inject_Z_S. ring.
Qed.

Lemma iter_taken_capacity n t b :
  (capacity (Nat.iter (S n) (taken t) b)
   == capacity (refreshed t b) - inject_Z (Z.of_nat (S n)))%Q.
Proof.
  rewrite Nat.iter_succ, capacity_taken, iter_taken_refreshed, inject_Z_S.
  ring.
Qed.

Lemma wait_at_iter n t c h i :
  i ∈ c -> (wait_at t (Nat.iter n (take_chain t c) h) i == wait_after t h n i)%Q.
Proof.
  intros Hi. unfold wait_at, wait_after. rewrite take_chain_iter_lookup.
  destruct (h !! i) as [b|]; simpl; [|reflexivity].
  rewrite bool_decide_eq_true_2 by done. unfold timeToWait.
  rewrite options_refreshed, iter_taken_options, iter_taken_refreshed.
  reflexivity.
Qed.

Lemma world_eta w : {| heap := heap w; clock := clock w |} = w.
Proof. by destruct w. Qed.

Lemma max_list_ext {A} (f g : A -> Q) l :
  (forall x, x ∈ l -> (f x == g x)%Q) ->
  (max_list (map f l) == max_list (map g l))%Q.
Proof.
  intros H. apply Qle_antisym; apply max_list_mono, Forall2_map_same;
    intros x Hx; rewrite (H x Hx); apply Qle_refl.
Qed.

(** [n] takes in a row, the clock standing still: the heap afterwards and
    each wait. *)
Lemma takes_run n :
  forall w this b,
    wf w -> heap w !! this = Some b ->
    exists ts,
      takes n this w =
        Val ts {| heap := Nat.iter n (take_chain (clock w) (chain w this))
                            (heap w);
                  clock := clock w |} /\
      length ts = n /\
      forall k a, ts !! k = Some a ->
        (a == max_list (map (wait_after (clock w) (heap w) k)
                            (chain w this)))%Q.
Proof.
  induction n as [|n IH]; intros w this b Hw Hb.
  - exists []. simpl. unfold ret. by rewrite world_eta.
  - destruct (take_run w this b Hw Hb) as (t & Ht & Et).
    set (w1 := {| heap := take_chain (clock w) (chain w this) (heap w);
                  clock := clock w |}) in *.
    assert (Hw1 : wf w1) by by apply wf_take_chain.
    assert (Hb1 : heap w1 !! this = Some (taken (clock w) b)).
    { unfold w1. cbn [heap]. rewrite take_chain_lookup, Hb. simpl.
      rewrite bool_decide_eq_true_2; [done|].
      apply (chain_iff w this this b Hw Hb), chain_here. }
    destruct (IH w1 this _ Hw1 Hb1) as (ts & Hts & Hlen & Hk).
    unfold w1 in Hts, Hk. rewrite chain_take_chain in Hts, Hk.
    cbn [heap clock] in Hts, Hk. fold w1 in Hts.
    exists (t :: ts). simpl takes. unfold bind. rewrite Ht, Hts.
    split; [by rewrite Nat.iter_succ_r|]. split; [simpl; by rewrite Hlen|].
    intros [|k] a Ha; simpl in Ha.
    + injection Ha as <-. rewrite Et. apply max_list_ext. intros i Hi.
      by rewrite <- (wait_at_iter 0 (clock w) (chain w this)).
    + rewrite (Hk _ _ Ha). apply max_list_ext. intros i Hi.
      rewrite <- (wait_at_iter k (clock w) (chain w this)) by done.
      rewrite <- (wait_at_iter (S k) (clock w) (chain w this)) by done.
      by rewrite Nat.iter_succ_r.
Qed.

Lemma take_chain_iter_length n t c h :
  length (Nat.iter n (take_chain t c) h) = length h.
Proof.
  induction n as [|n IH]; [done|].
  rewrite Nat.iter_succ. unfold take_chain at 1. by rewrite length_imap.
Qed.



Lemma Qdiv_le_inv x r T : (0 < r -> x / r <= T -> x <= T * r)%Q.
Proof.
  intros Hr H. apply (Qmult_le_r _ _ r Hr) in H.
  assert (E : (x / r * r == x)%Q) by (field; lra).
  by rewrite E in H.
Qed.

Lemma chain_root w this b :
  heap w !! this = Some b -> parent (options b) = None ->
  chain w this = [this].
Proof.
  intros Hb Hp. unfold chain.
  pose proof (lookup_lt_Some _ _ _ Hb).
  destruct (length (heap w)); [lia|]. simpl. by rewrite Hb, Hp.
Qed.


(** ** What the wait means *)

Lemma max_list_zero_iff l :
  (max_list l == 0)%Q <-> forall a, a ∈ l -> (a <= 0)%Q.
Proof.
  split.
  - intros E a Ha. rewrite <- E. by apply max_list_ge.
  - intros H. pose proof (max_list_nonneg l).
    destruct (max_list_attained l) as [E|(a & Ha & E)]; [done|].
    specialize (H a Ha). lra.
Qed.

Lemma timeToWait_nonpos_iff b :
  (0 < refillRate (options b))%Q ->
  (timeToWait b <= 0)%Q <-> (1 <= capacity b)%Q.
Proof.
  intros Hr. unfold timeToWait. split.
  - intros H. apply Qdiv_le_inv in H; [|done]. lra.
  - intros H. apply Qdiv_nonpos; [done|lra].
Qed.

Lemma wait_at_in_chain w this b i bi :
  wf w -> heap w !! this = Some b -> heap w !! i = Some bi ->
  in_parent_chain (heap w) this i ->
  wait_at (clock w) (heap w) i
    ∈ map (wait_at (clock w) (heap w)) (chain w this).
Proof.
  intros Hw Hb Hbi Hi%(chain_iff w this i b Hw Hb).
  apply list_elem_of_In, in_map, list_elem_of_In, Hi.
Qed.



(** ** Two children of one parent *)

Lemma take_chain_lookup_in t c h i b :
  h !! i = Some b -> i ∈ c -> take_chain t c h !! i = Some (taken t b).
Proof.
  intros Hb Hi. rewrite take_chain_lookup, Hb. simpl.
  by rewrite bool_decide_eq_true_2.
Qed.

Lemma take_chain_lookup_out t c h i :
  i ∉ c -> take_chain t c h !! i = h !! i.
Proof.
  intros Hi. rewrite take_chain_lookup, bool_decide_eq_false_2 by done.
  by destruct (h !! i).
Qed.

Lemma chain_child w a ba p :
  wf w -> heap w !! a = Some ba -> parent (options ba) = Some p ->
  p ∈ chain w a /\ forall i, i ∈ chain w a -> i = a \/ i <= p.
Proof.
  intros Hw Hb Hp. pose proof (wf_parent _ _ (Hw _ _ Hb) _ Hp) as Hlt.
  split.
  - apply (chain_iff w a p ba Hw Hb).
    eapply chain_up; [done..|apply chain_here].
  - intros i Hi. unfold chain in Hi.
    pose proof (lookup_lt_Some _ _ _ Hb).
    destruct (length (heap w)) as [|n]; [lia|]. simpl in Hi.
    rewrite Hb, Hp in Hi. apply elem_of_cons in Hi as [->|Hi]; [by left|].
    right. eapply chain_fuel_le; [by apply wf_parents_below|done].
Qed.



(** ** A child, then a take *)

Lemma chain_fuel_app fuel h x this :
  parents_below h -> this < length h ->
  chain_fuel fuel (h ++ [x]) this = chain_fuel fuel h this.
Proof.
  intros Hp. revert this. induction fuel as [|fuel IH]; intros this Hl; [done|].
  simpl. rewrite lookup_app_l by done.
  destruct (h !! this) as [b|] eqn:Hb; [|done].
  destruct (parent (options b)) as [p|] eqn:Ep; [|done].
  pose proof (Hp _ _ _ Hb Ep). rewrite IH by lia. done.
Qed.

Lemma wait_at_app t h x i :
  i < length h -> wait_at t (h ++ [x]) i = wait_at t h i.
Proof. intros Hi. unfold wait_at. by rewrite lookup_app_l. Qed.

Lemma capacity_refreshed_fresh opts t :
  (capacity (refreshed t (fresh opts t)) == maximumCapacity opts)%Q.
Proof. rewrite capacity_refreshed_steady; [reflexivity|done|simpl; lra]. Qed.



(** ** [metadata] after takes *)

Lemma wf_take_chain_iter n t c w :
  wf w ->
  wf {| heap := Nat.iter n (take_chain t c) (heap w); clock := clock w |}.
Proof.
  intros Hw. induction n as [|n IH]; [simpl; by rewrite world_eta|].
  rewrite Nat.iter_succ. by apply (wf_take_chain t c _ IH).
Qed.

Lemma firstTimestamp_taken_same t b :
  firstTimestamp b = None \/ firstTimestamp b = Some t ->
  firstTimestamp (taken t b) = Some t.
Proof.
  unfold taken, counted. intros [E|E]; rewrite E; simpl; [done|].
  by destruct t.
Qed.

Lemma firstTimestamp_iter_taken n t b :
  firstTimestamp b = None ->
  firstTimestamp (Nat.iter (S n) (taken t) b) = Some t.
Proof.
  intros E. induction n as [|n IH].
  - apply firstTimestamp_taken_same. by left.
  - rewrite Nat.iter_succ. apply firstTimestamp_taken_same. by right.
Qed.



(** ** [withTokenBucket] *)



(** ** Waiting before the take *)

Lemma refreshed_later t d b :
  (0 < refillRate (options b))%Q -> (0 <= d)%Z ->
  (capacity (refreshed t b) <= capacity (refreshed (t + d) b))%Q.
Proof.
  intros Hr Hd. cbn [refreshed capacity set_capacity]. unfold elapsed.
  cbn [lastTimestamp set_lastTimestamp].
  replace (t + d - lastTimestamp b)%Z with ((t - lastTimestamp b) + d)%Z
    by lia.
  rewrite inject_Z_plus.
  set (r := refillRate (options b)) in *.
  set (e1 := inject_Z (t - lastTimestamp b)).
  assert (He2 : (0 <= inject_Z d)%Q).
  { change 0%Q with (inject_Z 0). by rewrite <- Zle_Qle. }
  set (e2 := inject_Z d) in *.
  set (x1 := (r * (e1 / 1000))%Q).
  set (x2 := (r * (e2 / 1000))%Q).
  assert (Hx2 : (0 <= x2)%Q).
  { unfold x2. apply Qmult_le_0_compat; [lra|].
    apply Qle_shift_div_l; [done|lra]. }
  assert (Hx : (r * ((e1 + e2) / 1000) == x1 + x2)%Q).
  { unfold x1, x2. field. }
  set (x := (r * ((e1 + e2) / 1000))%Q) in *.
  clearbody x x1 x2. q_minmax.
Qed.



(** ** The counters *)

Lemma in_parent_chain_step h this i bi p :
  in_parent_chain h this i -> h !! i = Some bi ->
  parent (options bi) = Some p -> in_parent_chain h this p.
Proof.
  induction 1 as [this|this b q i Hb Hq _ IH]; intros Hi Hp.
  - eapply chain_up; [done..|apply chain_here].
  - eapply chain_up; [done..|]. by apply IH.
Qed.

Lemma firstTimestamp_taken_not_None t b : firstTimestamp (taken t b) <> None.
Proof.
  destruct (firstTimestamp_taken_Some t b) as [x E]. by rewrite E.
Qed.

Lemma counters_ok_alloc w opts :
  wf w -> counters_ok w ->
  counters_ok {| heap := heap w ++ [fresh opts (clock w)];
                 clock := clock w |}.
Proof.
  intros Hw Hc i b. cbn [heap].
  intros [[Hlt Hi]|[-> <-]]%lookup_snoc_Some.
  - destruct (Hc i b Hi) as (H0 & H1 & H2). split; [done|]. split; [done|].
    intros p bp Hp Hbp. apply (H2 p bp Hp).
    pose proof (wf_parent _ _ (Hw _ _ Hi) _ Hp).
    rewrite lookup_app_l in Hbp by lia. done.
  - simpl. split; [lia|]. split; [done|].
    intros p bp _ [[_ Hbp]|[_ <-]]%lookup_snoc_Some; simpl; [|lia].
    by destruct (Hc p bp Hbp).
Qed.

Lemma counters_ok_take w this b :
  wf w -> heap w !! this = Some b -> counters_ok w ->
  counters_ok {| heap := take_chain (clock w) (chain w this) (heap w);
                 clock := clock w |}.
Proof.
  intros Hw Hb Hc i bi'. cbn [heap]. rewrite take_chain_lookup.
  destruct (heap w !! i) as [bi|] eqn:Hi; [|done]. simpl. intros [= <-].
  destruct (Hc i bi Hi) as (H0 & H1 & H2).
  assert (Hpar : forall p bp',
             parent (options bi) = Some p ->
             take_chain (clock w) (chain w this) (heap w) !! p = Some bp' ->
             exists bp, heap w !! p = Some bp /\
               (count bp <= count bp')%Z /\
               (i ∈ chain w this -> count bp' = (count bp + 1)%Z)).
  { intros p bp' Hp. rewrite take_chain_lookup.
    destruct (heap w !! p) as [bp|] eqn:Hbp; [|done]. simpl. intros [= <-].
    exists bp. split; [done|]. case_bool_decide as Hin.
    - rewrite count_taken. split; [lia|done].
    - split; [lia|]. intros Hi'. exfalso. apply Hin.
      apply (chain_iff w this p b Hw Hb).
      apply (in_parent_chain_step _ _ i bi p); [|done|done].
      by apply (chain_iff w this i b Hw Hb). }
  case_bool_decide as Hin.
  - rewrite count_taken, options_taken. split; [lia|]. split.
    + split; [by intros ?%firstTimestamp_taken_not_None|lia].
    + intros p bp' Hp Hbp'.
      destruct (Hpar p bp' Hp Hbp') as (bp & Hbp & _ & E).
      rewrite (E Hin). specialize (H2 p bp Hp Hbp). lia.
  - split; [done|]. split; [done|].
    intros p bp' Hp Hbp'.
    destruct (Hpar p bp' Hp Hbp') as (bp & Hbp & Hle & _).
    specialize (H2 p bp Hp Hbp). lia.
Qed.

(** X13.  In every world reached through the interface, each bucket has a
    [count] of [0] or more, has [firstTimestamp] absent exactly while its
    [count] is [0], and has a [count] no larger than its parent's. *)
Theorem reachable_counters_ok w : reachable w -> counters_ok w.
Proof.
  induction 1 as [t|t w _ IH|ms w _ IH|opts w this w' Hr IH Hp H
                  |this opts w c w' Hr IH H|this w t w' Hr IH H
                  |this w m w' _ IH H].
  - intros i b Hi. done.
  - exact IH.
  - exact IH.
  - apply constructor_Val in H as (_ & _ & _ & ->).
    apply counters_ok_alloc; [by apply reachable_wf|done].
  - apply child_Val in H as (b & _ & (_ & _ & _ & ->)%constructor_Val).
    apply counters_ok_alloc; [by apply reachable_wf|done].
  - pose proof (reachable_wf _ Hr) as Hw.
    destruct (heap w !! this) as [b|] eqn:Hb.
    + destruct (take_run w this b Hw Hb) as (t' & E & _).
      rewrite E in H. injection H as _ <-.
      by apply (counters_ok_take w this b).
    + unfold take in H. destruct (length (heap w)); [done|].
      simpl in H. unfold take_body, bind, addOneToMetrics, bind, read in H.
      by rewrite Hb in H.
  - by apply metadata_pure in H as ->.
Qed.

Lemma reachable_counters_ok_witness :
  (0 <= count (fresh {| maximumCapacity := 10; refillRate := 1;
                        parent := Some 0%nat |} 0))%Z.
Proof.
  apply (reachable_counters_ok (two_levels 0) (reachable_two_levels 0) 1
           _ eq_refl).
Defined.

(** ** Successive takes, call by call *)

Lemma takes_app k m this w :
  takes (k + m) this w =
    (let! a := takes k this in
     let! b := takes m this in
     ret (a ++ b)) w.
Proof.
  revert w. induction k as [|k IH]; intros w.
  - simpl. unfold bind, ret. by destruct (takes m this w).
  - simpl. unfold bind. destruct (take this w) as [t w1| |]; [|done..].
    rewrite IH. unfold bind.
    destruct (takes k this w1) as [a w2| |]; [|done..].
    unfold ret. by destruct (takes m this w2).
Qed.

Lemma chain_take_chain_iter k t c w x :
  chain {| heap := Nat.iter k (take_chain t c) (heap w); clock := clock w |} x
  = chain w x.
Proof.
  induction k as [|k IH]; [simpl; by rewrite world_eta|].
  rewrite Nat.iter_succ, <- IH.
  exact (chain_take_chain t c
           {| heap := Nat.iter k (take_chain t c) (heap w);
              clock := clock w |} x).
Qed.


